(** * EWMA volatility-targeting overlay: a model of [run_aapl_ewma_voltarget.py]

    The script is a pandas/numpy pipeline over float64 columns.  The model
    below keeps its structure (one definition per column or helper, in the
    order of the source) and idealises its numbers: a float64 value is a real
    number, plus or minus infinity, or NaN.  Rounding, overflow and the sign
    of zero are outside the model; every zero behaves as +0.0.  Division by
    zero, NaN propagation, the NaN-skipping reductions of pandas and Python's
    [ZeroDivisionError] on scalar floats are modelled as the libraries
    implement them. *)

From Stdlib Require Import String.
From Stdlib Require Import Reals Lra Lia List Bool Arith ZArith.
Import ListNotations.
Open Scope R_scope.

(** ** Idealised float64 values *)

Inductive float : Type :=
| Fin (x : R)
| PInf
| NInf
| NaN.

Definition Rltb (x y : R) : bool := if Rlt_dec x y then true else false.
Definition Reqb (x y : R) : bool := if Req_dec_T x y then true else false.

Definition isna (a : float) : bool :=
  match a with NaN => true | _ => false end.

Definition notna (a : float) : bool := negb (isna a).

(** The infinity carrying the sign of [x]; NaN when [x] is zero
    (the value of [x * inf] and of [x / 0.0]). *)
Definition inf_of_sign (x : R) : float :=
  if Rltb 0 x then PInf else if Rltb x 0 then NInf else NaN.

Definition fneg (a : float) : float :=
  match a with
  | Fin x => Fin (- x)
  | PInf => NInf
  | NInf => PInf
  | NaN => NaN
  end.

Definition fadd (a b : float) : float :=
  match a, b with
  | NaN, _ | _, NaN => NaN
  | Fin x, Fin y => Fin (x + y)
  | PInf, NInf | NInf, PInf => NaN
  | PInf, _ | _, PInf => PInf
  | NInf, _ | _, NInf => NInf
  end.

Definition fsub (a b : float) : float := fadd a (fneg b).

Definition fmul (a b : float) : float :=
  match a, b with
  | NaN, _ | _, NaN => NaN
  | Fin x, Fin y => Fin (x * y)
  | Fin x, PInf | PInf, Fin x => inf_of_sign x
  | Fin x, NInf | NInf, Fin x => inf_of_sign (- x)
  | PInf, PInf | NInf, NInf => PInf
  | PInf, NInf | NInf, PInf => NInf
  end.

Definition fdiv (a b : float) : float :=
  match a, b with
  | NaN, _ | _, NaN => NaN
  | Fin x, Fin y => if Reqb y 0 then inf_of_sign x else Fin (x / y)
  | Fin _, PInf | Fin _, NInf => Fin 0
  | PInf, Fin y => if Rltb y 0 then NInf else PInf
  | NInf, Fin y => if Rltb y 0 then PInf else NInf
  | PInf, PInf | PInf, NInf | NInf, PInf | NInf, NInf => NaN
  end.

Definition fsqrt (a : float) : float :=
  match a with
  | Fin x => if Rltb x 0 then NaN else Fin (sqrt x)
  | PInf => PInf
  | NInf | NaN => NaN
  end.

Definition fabs (a : float) : float :=
  match a with
  | Fin x => Fin (Rabs x)
  | PInf | NInf => PInf
  | NaN => NaN
  end.

(** [a < b] on floats: false as soon as one side is NaN. *)
Definition fltb (a b : float) : bool :=
  match a, b with
  | NaN, _ | _, NaN => false
  | Fin x, Fin y => Rltb x y
  | NInf, NInf | PInf, _ | Fin _, NInf => false
  | NInf, _ | Fin _, PInf => true
  end.

Definition fgtb (a b : float) : bool := fltb b a.

(** [a == b] on floats. *)
Definition feqb (a b : float) : bool :=
  match a, b with
  | Fin x, Fin y => Reqb x y
  | PInf, PInf | NInf, NInf => true
  | _, _ => false
  end.

(** [a <= b] as a proposition; it fails when a side is NaN. *)
Definition fle (a b : float) : Prop :=
  match a, b with
  | NaN, _ | _, NaN => False
  | Fin x, Fin y => x <= y
  | NInf, _ | _, PInf => True
  | _, _ => False
  end.

(** Whether the real [y] is an odd integer. *)
Definition Rodd (y : R) : bool :=
  Reqb y (IZR (Int_part y)) && Z.odd (Int_part y).

Definition Rint (y : R) : bool := Reqb y (IZR (Int_part y)).

(** numpy's [b ** y] for a float64 base and a finite exponent [y]
    (C [pow]): [x ** 0 = 1] for every [x], a negative base needs an
    integral exponent. *)
Definition fpow (b : float) (y : R) : float :=
  if Reqb y 0 then Fin 1 else
  match b with
  | NaN => NaN
  | Fin x =>
      if Rltb 0 x then Fin (Rpower x y)
      else if Reqb x 0 then (if Rltb 0 y then Fin 0 else PInf)
      else if Rint y
           then (if Rodd y then Fin (- Rpower (- x) y) else Fin (Rpower (- x) y))
           else NaN
  | PInf => if Rltb 0 y then PInf else Fin 0
  | NInf => if Rltb 0 y then (if Rodd y then NInf else PInf) else Fin 0
  end.

(** ** Python exceptions *)

Inductive exn : Type := ZeroDivisionError | ValueError.

Inductive result (A : Type) : Type :=
| Ok (a : A)
| Raise (e : exn).
Arguments Ok {A} a.
Arguments Raise {A} e.

Definition bind {A B : Type} (m : result A) (k : A -> result B) : result B :=
  match m with
  | Ok a => k a
  | Raise e => Raise e
  end.

Notation "x <- m ;; k" := (bind m (fun x => k))
  (at level 61, m at next level, right associativity).

(** Division of two Python floats: a zero divisor raises. *)
Definition py_div (x y : R) : result R :=
  if Reqb y 0 then Raise ZeroDivisionError else Ok (x / y).

(** ** pandas Series, by position *)

Definition series := list float.

Fixpoint map2 {A B C : Type} (f : A -> B -> C) (l1 : list A) (l2 : list B) : list C :=
  match l1, l2 with
  | a :: l1', b :: l2' => f a b :: map2 f l1' l2'
  | _, _ => []
  end.

Definition dropna (s : series) : series := filter notna s.

Definition fillna (v : R) (s : series) : series :=
  map (fun a => if isna a then Fin v else a) s.

(** [s.replace(0, np.nan)] *)
Definition replace_zero_nan (s : series) : series :=
  map (fun a => if feqb a (Fin 0) then NaN else a) s.

(** [s.shift(1)] *)
Definition shift1 (s : series) : series :=
  match s with
  | [] => []
  | _ :: _ => NaN :: removelast s
  end.

Definition fsum (s : list float) : float := fold_left fadd s (Fin 0).

(** [s.mean()], NaN skipped; NaN on an empty selection. *)
Definition mean (s : series) : float :=
  let v := dropna s in
  match v with
  | [] => NaN
  | _ :: _ => fdiv (fsum v) (Fin (INR (length v)))
  end.

(** [s.std()]: sample standard deviation (ddof = 1), NaN skipped; NaN when
    fewer than two values remain. *)
Definition std (s : series) : float :=
  let v := dropna s in
  if (length v <=? 1)%nat then NaN
  else
    let avg := fdiv (fsum v) (Fin (INR (length v))) in
    let sqr := fsum (map (fun x => fmul (fsub avg x) (fsub avg x)) v) in
    fsqrt (fdiv sqr (Fin (INR (length v) - 1))).

(** [s.prod()], NaN skipped. *)
Definition prod (s : series) : float := fold_left fmul (dropna s) (Fin 1).

(** [s.cumprod()]: a NaN stays in place and is skipped by the accumulator. *)
Fixpoint cumprod_from (acc : float) (s : series) : series :=
  match s with
  | [] => []
  | x :: s' =>
      if isna x then NaN :: cumprod_from acc s'
      else fmul acc x :: cumprod_from (fmul acc x) s'
  end.

Definition cumprod (s : series) : series := cumprod_from (Fin 1) s.

Definition fmax (a b : float) : float := if fltb a b then b else a.
Definition fmin (a b : float) : float := if fltb b a then b else a.

(** [s.cummax()]: running maximum, NaN kept in place and skipped. *)
Fixpoint cummax_from (acc : float) (s : series) : series :=
  match s with
  | [] => []
  | x :: s' =>
      if isna x then NaN :: cummax_from acc s'
      else fmax acc x :: cummax_from (fmax acc x) s'
  end.

Definition cummax (s : series) : series := cummax_from NInf s.

(** [s.min()], NaN skipped; NaN when nothing remains. *)
Definition smin (s : series) : float :=
  match dropna s with
  | [] => NaN
  | x :: v => fold_left fmin v x
  end.

(** [s.clip(lower=.., upper=..)] with scalar bounds: pandas orders the two
    bounds first, and a NaN stays NaN. *)
Definition clip1 (lower upper : R) (a : float) : float :=
  let lo := Rmin lower upper in
  let hi := Rmax lower upper in
  if isna a then NaN
  else if fltb a (Fin lo) then Fin lo
  else if fltb (Fin hi) a then Fin hi
  else a.

Definition clip (lower upper : R) (s : series) : series :=
  map (clip1 lower upper) s.

(** [np.clip(a, lo, hi)] on a scalar: [minimum(maximum(a, lo), hi)], NaN
    propagating. *)
Definition np_maximum (a b : float) : float :=
  if isna a || isna b then NaN else fmax a b.
Definition np_minimum (a b : float) : float :=
  if isna a || isna b then NaN else fmin a b.
Definition np_clip (a : float) (lo hi : R) : float :=
  np_minimum (np_maximum a (Fin lo)) (Fin hi).

(** [s.rolling(window).mean()] over a NaN-free column: NaN until [window]
    observations are available, then the mean of the last [window]. *)
Definition rolling_mean (window : nat) (xs : list R) : series :=
  map (fun t =>
         if (S t <? window)%nat then NaN
         else fdiv (fsum (map Fin (firstn window (skipn (S t - window) xs))))
                   (Fin (INR window)))
      (seq 0 (length xs)).

(** pandas' window functions read an infinite entry as a missing one. *)
Definition inf_to_nan (a : float) : float :=
  match a with
  | PInf | NInf => NaN
  | _ => a
  end.

(** [s.ewm(alpha=alpha, adjust=False).mean()].  The constructor refuses an
    [alpha] outside (0, 1]; infinite entries are first replaced by NaN.  The
    running average [weighted] restarts at the first observation; a NaN
    input repeats the current average and ages the old weight; an
    observation equal to the average leaves it unchanged. *)
Fixpoint ewm_from (alpha : R) (weighted : float) (old_wt : R) (s : series) : series :=
  match s with
  | [] => []
  | cur :: s' =>
      if notna weighted then
        let old_wt1 := old_wt * (1 - alpha) in
        if notna cur then
          let weighted1 :=
            if feqb weighted cur then weighted
            else fdiv (fadd (fmul (Fin old_wt1) weighted) (fmul (Fin alpha) cur))
                      (Fin (old_wt1 + alpha)) in
          weighted1 :: ewm_from alpha weighted1 1 s'
        else weighted :: ewm_from alpha weighted old_wt1 s'
      else cur :: ewm_from alpha cur old_wt s'
  end.

Definition ewm_mean (alpha : R) (s : series) : result series :=
  if Rle_dec alpha 0 then Raise ValueError
  else if Rlt_dec 1 alpha then Raise ValueError
  else Ok (match map inf_to_nan s with
           | [] => []
           | x :: s' => x :: ewm_from alpha x 1 s'
           end).

(** ** The performance evaluator: [kpis] (lines 36-59) *)

Record kpi : Type := mk_kpi {
  CAGR : float;
  AnnVol : float;
  Sharpe : float;
  MaxDD : float;
  Calmar : float
}.

(** [(r - rf.loc[r.index]).dropna()] for [r = returns.dropna()]; [returns]
    and [rf] are columns of one frame, so they are aligned by position. *)
Definition excess (returns rf : series) : series :=
  dropna (map (fun ab => fsub (fst ab) (snd ab))
              (filter (fun ab => notna (fst ab)) (combine returns rf))).

(** [eq / eq.cummax() - 1.0], also the body of [drawdown] (line 61). *)
Definition drawdown (eq : series) : series :=
  map (fun q => fsub q (Fin 1)) (map2 fdiv eq (cummax eq)).

Definition kpis (returns : series) (rf : option series) : result kpi :=
  let r := dropna returns in
  let ex := match rf with
            | None => r
            | Some rf => excess returns rf
            end in
  e <- py_div 252 (INR (length r)) ;;
  let ann_ret := fsub (fpow (prod (map (fadd (Fin 1)) r)) e) (Fin 1) in
  let ann_vol := fmul (std r) (fsqrt (Fin 252)) in
  let sharpe := if fgtb (std r) (Fin 0)
                then fmul (fdiv (mean ex) (std r)) (fsqrt (Fin 252))
                else NaN in
  let eq := cumprod (map (fadd (Fin 1)) r) in
  let dd := drawdown eq in
  let maxdd := smin dd in
  let calmar := if fltb maxdd (Fin 0) then fdiv ann_ret (fabs maxdd) else NaN in
  Ok {| CAGR := ann_ret; AnnVol := ann_vol; Sharpe := sharpe;
        MaxDD := maxdd; Calmar := calmar |}.

(** ** The frame of [main] *)

(** A row of [df] after alignment (line 82): the three inputs, none missing. *)
Record bar : Type := mk_bar {
  b_close : R;
  b_vix : R;
  b_us2y : R
}.

(** A row of [df] after line 86. *)
Record row : Type := mk_row {
  aapl_close : R;
  vix : R;
  us2y_yield : R;
  ret : float;
  rf_daily : float
}.

(** [s.pct_change()] on a NaN-free column: [s / s.shift(1) - 1]. *)
Fixpoint pct_change_from (prev : R) (s : list R) : series :=
  match s with
  | [] => []
  | x :: s' => fsub (fdiv (Fin x) (Fin prev)) (Fin 1) :: pct_change_from x s'
  end.

Definition pct_change (s : list R) : series :=
  match s with
  | [] => []
  | x :: s' => NaN :: pct_change_from x s'
  end.

(** Lines 84-86: returns, daily risk-free rate, and [dropna] on the rows. *)
Definition prepare (bars : list bar) : list row :=
  filter (fun rw => notna (ret rw))
    (map2 (fun b r =>
             {| aapl_close := b_close b; vix := b_vix b; us2y_yield := b_us2y b;
                ret := r; rf_daily := Fin (b_us2y b / 100 / 252) |})
          bars (pct_change (map b_close bars))).

(** The parameters of lines 89-96. *)
Record params : Type := mk_params {
  lookback_vol : R;
  target_vol : R;
  lev_cap : R;
  sma_window : nat;
  sma_band : R;
  vix_cut : R;
  vix_width : R;
  cost_bps : R
}.

Definition default_params : params :=
  {| lookback_vol := 20; target_vol := 40 / 100; lev_cap := 13 / 10;
     sma_window := 20; sma_band := - (2 / 100); vix_cut := 35;
     vix_width := 10; cost_bps := 1 |}.

(** The columns [main] adds to [df] (lines 99-128) and the scalar [w_bh]. *)
Record frame : Type := mk_frame {
  sma20 : series;
  trend_ok : series;
  ewma_var : series;
  vol_hat_ann : series;
  w_raw : series;
  g_vix : series;
  w : series;
  strat_ret : series;
  bh_ret : series;
  eq_strat : series;
  eq_bh : series;
  w_bh : float;
  bh_vm_ret : series;
  eq_bh_vm : series
}.

(** [(close > (1.0 + sma_band) * sma).astype(float)] *)
Definition trend_signal (band : R) (close : list R) (sma : series) : series :=
  map2 (fun c s => if fgtb (Fin c) (fmul (Fin (1 + band)) s) then Fin 1 else Fin 0)
       close sma.

(** Line 108 before clipping, at one volatility-index level. *)
Definition gate_raw (p : params) (V : R) : float :=
  fsub (Fin 1) (fdiv (fsub (Fin V) (Fin (vix_cut p))) (Fin (vix_width p))).

(** The gate of line 108 at one volatility-index level. *)
Definition gate (p : params) (V : R) : float := clip1 0 1 (gate_raw p V).

(** [x.std() * np.sqrt(252.0)] *)
Definition annualised_vol (s : series) : float := fmul (std s) (fsqrt (Fin 252)).

(** [wt * ret + (1.0 - wt) * rf], the weight being a column. *)
Definition blend (wt r rf : series) : series :=
  map2 fadd (map2 fmul wt r) (map2 fmul (map (fsub (Fin 1)) wt) rf).

(** Lines 99-128 once [ewma_var] is there. *)
Definition build_frame (p : params) (df : list row) (ewma_var : series) : frame :=
  let close := map aapl_close df in
  let r := map ret df in
  let rf := map rf_daily df in
  let sma20 := rolling_mean (sma_window p) close in
  let trend_ok := trend_signal (sma_band p) close sma20 in
  let vol_hat_ann :=
    replace_zero_nan (map (fun v => fsqrt (fmul (Fin 252) v)) ewma_var) in
  let w_raw :=
    fillna 0 (clip 0 (lev_cap p) (map (fdiv (Fin (target_vol p))) vol_hat_ann)) in
  let g_vix := clip 0 1 (map (gate_raw p) (map vix df)) in
  let w := clip 0 (lev_cap p) (map2 fmul (map2 fmul w_raw trend_ok) g_vix) in
  let w_prev := fillna 0 (shift1 w) in
  let gross := blend w_prev r rf in
  let turnover := map fabs (map2 fsub w w_prev) in
  let cost := map (fmul (Fin (cost_bps p / 10000))) turnover in
  let strat_ret := map2 fsub gross cost in
  let bh_ret := r in
  let eq_strat := cumprod (map (fadd (Fin 1)) strat_ret) in
  let eq_bh := cumprod (map (fadd (Fin 1)) bh_ret) in
  let bh_vol := annualised_vol bh_ret in
  let strat_vol := annualised_vol strat_ret in
  let w_bh :=
    np_clip (if fgtb bh_vol (Fin 0) then fdiv strat_vol bh_vol else Fin 1) 0 3 in
  let bh_vm_ret :=
    map2 fadd (map (fmul w_bh) r) (map (fmul (fsub (Fin 1) w_bh)) rf) in
  let eq_bh_vm := cumprod (map (fadd (Fin 1)) bh_vm_ret) in
  {| sma20 := sma20; trend_ok := trend_ok; ewma_var := ewma_var;
     vol_hat_ann := vol_hat_ann; w_raw := w_raw; g_vix := g_vix; w := w;
     strat_ret := strat_ret; bh_ret := bh_ret; eq_strat := eq_strat;
     eq_bh := eq_bh; w_bh := w_bh; bh_vm_ret := bh_vm_ret;
     eq_bh_vm := eq_bh_vm |}.

(** Lines 99-128 on the frame [df]: the only steps that can raise are the
    scalar division of line 103 and the [ewm] constructor of line 104. *)
Definition simulate (p : params) (df : list row) : result frame :=
  alpha <- py_div 2 (lookback_vol p + 1) ;;
  ewma_var <- ewm_mean alpha (map (fun x => fmul x x) (map ret df)) ;;
  Ok (build_frame p df ewma_var).

(** [main] from line 84 to the three [kpis] calls of lines 130-132. *)
Definition main (p : params) (bars : list bar) : result (frame * (kpi * kpi * kpi)) :=
  let df := prepare bars in
  let rf := map rf_daily df in
  fr <- simulate p df ;;
  k_strat <- kpis (strat_ret fr) (Some rf) ;;
  k_bh <- kpis (bh_ret fr) (Some rf) ;;
  k_vm <- kpis (bh_vm_ret fr) (Some rf) ;;
  Ok (fr, (k_strat, k_bh, k_vm)).

(** ** Reading and aligning the inputs *)

(** Lines 24-30 of [load_bbg_csv]: the first candidate that is a column of
    the table; [ValueError] when none is. *)
Fixpoint value_column (columns value_candidates : list string) : result string :=
  match value_candidates with
  | [] => Raise ValueError
  | c :: rest =>
      if in_dec string_dec c columns then Ok c
      else value_column columns rest
  end.

(** A row of [pd.concat([aapl, vix, us2y], axis=1).sort_index()] (line 80):
    a date on which a series has no value holds a missing cell. *)
Record cells : Type := mk_cells {
  c_close : option R;
  c_vix : option R;
  c_us2y : option R
}.

(** [s.ffill()]: a missing cell takes the last value seen above it. *)
Fixpoint ffill_from (last : option R) (s : list (option R)) : list (option R) :=
  match s with
  | [] => []
  | x :: s' =>
      let v := match x with Some _ => x | None => last end in
      v :: ffill_from v s'
  end.

Definition ffill (s : list (option R)) : list (option R) := ffill_from None s.

(** [df.dropna()] on the three columns: the rows with no missing cell. *)
Fixpoint complete_rows (close vx us : list (option R)) : list bar :=
  match close, vx, us with
  | c :: close', v :: vx', u :: us' =>
      match c, v, u with
      | Some pc, Some pv, Some pu =>
          {| b_close := pc; b_vix := pv; b_us2y := pu |}
            :: complete_rows close' vx' us'
      | _, _, _ => complete_rows close' vx' us'
      end
  | _, _, _ => []
  end.

(** Lines 81-82: forward-fill the two auxiliary columns, then drop the rows
    that still miss a cell. *)
Definition align (table : list cells) : list bar :=
  complete_rows (map c_close table)
                (ffill (map c_vix table))
                (ffill (map c_us2y table)).

(** ** Real-valued images used in the statements and proofs *)

(** The recurrence on reals, started from the average [y]. *)
Fixpoint ewm_real (alpha y : R) (xs : list R) : list R :=
  match xs with
  | [] => []
  | x :: xs' =>
      let y' := alpha * x + (1 - alpha) * y in
      y' :: ewm_real alpha y' xs'
  end.

(** The real-valued image of the EWMA of a column of numbers. *)
Definition ewm_reals (alpha : R) (xs : list R) : list R :=
  match xs with
  | [] => []
  | x :: xs' => x :: ewm_real alpha x xs'
  end.

(** Rows whose return is a number. *)
Definition finite_returns (df : list row) : Prop :=
  Forall (fun rw => exists x, ret rw = Fin x) df.

(** [M] is the largest of the entries [0 .. t] of [qs]. *)
Definition running_max (qs : list R) (t : nat) (M : R) : Prop :=
  In M (firstn (S t) qs) /\ Forall (fun q => q <= M) (firstn (S t) qs).

(** The newer of two cells, a missing one leaving the older. *)
Definition keep_last (acc x : option R) : option R :=
  match x with Some _ => x | None => acc end.

(** The last value seen in a column, if any. *)
Definition last_seen (s : list (option R)) : option R :=
  fold_left keep_last s None.

(** The cells of a row that misses nothing. *)
Definition cells_of_bar (b : bar) : cells :=
  {| c_close := Some (b_close b); c_vix := Some (b_vix b);
     c_us2y := Some (b_us2y b) |}.

(** ** Inputs used in the concrete runs below *)

Definition flat_bar : bar := {| b_close := 100; b_vix := 40; b_us2y := 5 |}.

(** Two days at the same price. *)
Definition flat_bars : list bar := [flat_bar; flat_bar].

(** The one row that [prepare] makes of [flat_bars]. *)
Definition flat_row : row :=
  {| aapl_close := 100; vix := 40; us2y_yield := 5; ret := Fin 0;
     rf_daily := Fin (5 / 100 / 252) |}.

(** A row after a rise of one percent, with a calm volatility index. *)
Definition calm_row : row :=
  {| aapl_close := 101; vix := 20; us2y_yield := 5; ret := Fin (1 / 100);
     rf_daily := Fin (5 / 100 / 252) |}.

(** The parameters of the script with [vix_width] set to 0. *)
Definition zero_width : params :=
  {| lookback_vol := 20; target_vol := 40 / 100; lev_cap := 13 / 10;
     sma_window := 20; sma_band := - (2 / 100); vix_cut := 35;
     vix_width := 0; cost_bps := 1 |}.

(** The parameters of the script with a negative [lev_cap]. *)
Definition negative_cap : params :=
  {| lookback_vol := 20; target_vol := 40 / 100; lev_cap := - 1;
     sma_window := 20; sma_band := - (2 / 100); vix_cut := 35;
     vix_width := 10; cost_bps := 1 |}.

(** * Properties *)

(** ** Comparisons on reals *)

Lemma Rltb_true x y : x < y -> Rltb x y = true.
Proof. intros H; unfold Rltb; destruct (Rlt_dec x y); [reflexivity | contradiction]. Qed.

Lemma Rltb_false x y : ~ x < y -> Rltb x y = false.
Proof. intros H; unfold Rltb; destruct (Rlt_dec x y); [contradiction | reflexivity]. Qed.

Lemma Reqb_true x y : x = y -> Reqb x y = true.
Proof. intros H; unfold Reqb; destruct (Req_dec_T x y); [reflexivity | contradiction]. Qed.

Lemma Reqb_false x y : x <> y -> Reqb x y = false.
Proof. intros H; unfold Reqb; destruct (Req_dec_T x y); [contradiction | reflexivity]. Qed.

(** Decides the comparisons of a goal whose reals are explicit. *)
Ltac rdecide :=
  repeat match goal with
  | |- context [Rltb ?a ?b] =>
      first [ rewrite (Rltb_true a b) by lra | rewrite (Rltb_false a b) by lra ]
  | |- context [Reqb ?a ?b] =>
      first [ rewrite (Reqb_true a b) by lra | rewrite (Reqb_false a b) by lra ]
  end.

(** ** Lists by position *)

Lemma map2_length {A B C} (f : A -> B -> C) l1 l2 :
  length (map2 f l1 l2) = Nat.min (length l1) (length l2).
Proof.
  revert l2; induction l1 as [|a l1 IH]; intros [|b l2]; simpl; auto.
Qed.

Lemma nth_error_map2 {A B C} (f : A -> B -> C) l1 l2 t :
  nth_error (map2 f l1 l2) t =
  match nth_error l1 t, nth_error l2 t with
  | Some a, Some b => Some (f a b)
  | _, _ => None
  end.
Proof.
  revert l2 t; induction l1 as [|a l1 IH]; intros [|b l2] [|t]; simpl; auto.
  destruct (nth_error l1 t); reflexivity.
Qed.

Lemma nth_error_shift1 (s : series) t :
  (S t < length s)%nat -> nth_error (shift1 s) (S t) = nth_error s t.
Proof.
  destruct s as [|a s]; [simpl; lia|].
  intros H. cbn [shift1 nth_error].
  revert a t H. induction s as [|b s IH]; intros a t H; [simpl in H; lia|].
  destruct t as [|t]; [reflexivity|].
  change (removelast (a :: b :: s)) with (a :: removelast (b :: s)).
  cbn [nth_error]. apply IH. simpl in *. lia.
Qed.

Lemma shift1_length (s : series) : length (shift1 s) = length s.
Proof.
  destruct s as [|a s]; [reflexivity|].
  cbn [shift1 length]. f_equal.
  revert a; induction s as [|b s IH]; intros a; [reflexivity|].
  change (removelast (a :: b :: s)) with (a :: removelast (b :: s)).
  cbn [length]. f_equal. apply IH.
Qed.

Lemma fillna_length v s : length (fillna v s) = length s.
Proof. apply length_map. Qed.

Lemma nth_error_in_range {A} (l : list A) t :
  (t < length l)%nat -> exists a, nth_error l t = Some a.
Proof.
  intros H. destruct (nth_error l t) eqn:E; [eauto|].
  apply nth_error_None in E. lia.
Qed.

(** ** Clipping *)

Lemma clip1_range lo hi a :
  a <> NaN ->
  exists v, clip1 lo hi a = Fin v /\ Rmin lo hi <= v <= Rmax lo hi.
Proof.
  intros Ha. unfold clip1.
  pose proof (Rmin_l lo hi). pose proof (Rmax_l lo hi).
  assert (Rmin lo hi <= Rmax lo hi) by lra.
  destruct a as [x| | |]; simpl; try congruence.
  - unfold Rltb.
    destruct (Rlt_dec x (Rmin lo hi)); [eexists; split; [reflexivity|lra]|].
    destruct (Rlt_dec (Rmax lo hi) x); eexists; (split; [reflexivity|lra]).
  - eexists; split; [reflexivity|lra].
  - eexists; split; [reflexivity|lra].
Qed.

Lemma clip1_inside lo hi x :
  lo <= x <= hi -> clip1 lo hi (Fin x) = Fin x.
Proof.
  intros H. unfold clip1. simpl.
  rewrite Rmin_left, Rmax_right by lra.
  rewrite !Rltb_false by lra. reflexivity.
Qed.

Lemma clip1_below lo hi x :
  lo <= hi -> x <= lo -> clip1 lo hi (Fin x) = Fin lo.
Proof.
  intros H Hx. unfold clip1. simpl.
  rewrite Rmin_left, Rmax_right by lra.
  unfold Rltb. destruct (Rlt_dec x lo); [reflexivity|].
  destruct (Rlt_dec hi x); [lra|]. f_equal; lra.
Qed.

Lemma clip1_above lo hi x :
  lo <= hi -> hi <= x -> clip1 lo hi (Fin x) = Fin hi.
Proof.
  intros H Hx. unfold clip1. simpl.
  rewrite Rmin_left, Rmax_right by lra.
  unfold Rltb. destruct (Rlt_dec x lo); [f_equal; lra|].
  destruct (Rlt_dec hi x); [reflexivity|]. f_equal; lra.
Qed.

(** ** The volatility-regime gate *)

Lemma gate_raw_fin p V :
  vix_width p <> 0 ->
  gate_raw p V = Fin (1 - (V - vix_cut p) / vix_width p).
Proof.
  intros Hw. unfold gate_raw. simpl.
  rewrite Reqb_false by assumption. reflexivity.
Qed.

Lemma gate_fin p V :
  vix_width p <> 0 -> exists g, gate p V = Fin g /\ 0 <= g <= 1.
Proof.
  intros Hw. unfold gate.
  destruct (clip1_range 0 1 (gate_raw p V)) as [g [Hg Hr]].
  - rewrite gate_raw_fin by assumption. discriminate.
  - rewrite Rmin_left, Rmax_right in Hr by lra. eauto.
Qed.

Lemma g_vix_nth p df ev t rw :
  nth_error df t = Some rw ->
  nth_error (g_vix (build_frame p df ev)) t = Some (gate p (vix rw)).
Proof.
  intros H. cbn [build_frame g_vix]. unfold clip.
  rewrite !map_map. rewrite nth_error_map, H. reflexivity.
Qed.

Lemma quotient_mono a b c : 0 < c -> a <= b -> a / c <= b / c.
Proof.
  intros Hc Hab. unfold Rdiv.
  apply Rmult_le_compat_r; [left; apply Rinv_0_lt_compat; assumption | assumption].
Qed.

Lemma clip1_mono lo hi x y :
  lo <= hi -> x <= y -> fle (clip1 lo hi (Fin x)) (clip1 lo hi (Fin y)).
Proof.
  intros Hlh Hxy. unfold clip1. simpl.
  rewrite Rmin_left, Rmax_right by lra.
  unfold Rltb.
  destruct (Rlt_dec x lo), (Rlt_dec y lo), (Rlt_dec hi x), (Rlt_dec hi y);
    simpl; lra.
Qed.

(** C5: with [vix_width > 0] the gate is a number of [0, 1], it does not
    increase when the volatility index increases, it is 1 up to [vix_cut],
    0 from [vix_cut + vix_width] on and linear in between; and the column
    [g_vix] holds the gate of each row's index level. *)
Theorem gate_nonincreasing_clipped (p : params) :
  0 < vix_width p ->
  (forall V, exists g, gate p V = Fin g /\ 0 <= g <= 1) /\
  (forall V1 V2, V1 <= V2 -> fle (gate p V2) (gate p V1)) /\
  (forall V, V <= vix_cut p -> gate p V = Fin 1) /\
  (forall V, vix_cut p + vix_width p <= V -> gate p V = Fin 0) /\
  (forall V, vix_cut p <= V <= vix_cut p + vix_width p ->
             gate p V = Fin (1 - (V - vix_cut p) / vix_width p)) /\
  (forall df ev t rw, nth_error df t = Some rw ->
             nth_error (g_vix (build_frame p df ev)) t = Some (gate p (vix rw))).
Proof.
  intros Hw.
  assert (Hw0 : vix_width p <> 0) by lra.
  assert (Hq : forall V, 0 <= V - vix_cut p -> 0 <= (V - vix_cut p) / vix_width p).
  { intros V HV. replace 0 with (0 / vix_width p) by (unfold Rdiv; ring).
    apply quotient_mono; assumption. }
  assert (Hq1 : forall V, V - vix_cut p <= vix_width p ->
                          (V - vix_cut p) / vix_width p <= 1).
  { intros V HV. replace 1 with (vix_width p / vix_width p) by (field; assumption).
    apply quotient_mono; assumption. }
  repeat split.
  - intros V. apply gate_fin; assumption.
  - intros V1 V2 H12. unfold gate. rewrite !gate_raw_fin by assumption.
    apply clip1_mono; [lra|].
    assert ((V1 - vix_cut p) / vix_width p <= (V2 - vix_cut p) / vix_width p)
      by (apply quotient_mono; lra).
    lra.
  - intros V HV. unfold gate. rewrite gate_raw_fin by assumption.
    apply clip1_above; [lra|].
    assert ((V - vix_cut p) / vix_width p <= (vix_cut p - vix_cut p) / vix_width p)
      by (apply quotient_mono; lra).
    replace ((vix_cut p - vix_cut p) / vix_width p) with 0 in H
      by (unfold Rdiv; ring).
    lra.
  - intros V HV. unfold gate. rewrite gate_raw_fin by assumption.
    apply clip1_below; [lra|].
    assert (vix_width p / vix_width p <= (V - vix_cut p) / vix_width p)
      by (apply quotient_mono; lra).
    replace (vix_width p / vix_width p) with 1 in H by (field; assumption).
    lra.
  - intros V [H1 H2]. unfold gate. rewrite gate_raw_fin by assumption.
    apply clip1_inside.
    specialize (Hq V). specialize (Hq1 V). lra.
  - intros df ev t rw. apply g_vix_nth.
Qed.

(** ** When [simulate] returns *)

Lemma ewm_from_length alpha s : forall weighted old_wt,
  length (ewm_from alpha weighted old_wt s) = length s.
Proof.
  induction s as [|cur s IH]; intros weighted old_wt; [reflexivity|].
  cbn [ewm_from].
  destruct (notna weighted); [destruct (notna cur)|]; cbn [length]; rewrite IH; reflexivity.
Qed.

Lemma ewm_mean_length alpha s ev :
  ewm_mean alpha s = Ok ev -> length ev = length s.
Proof.
  unfold ewm_mean.
  destruct (Rle_dec alpha 0); [discriminate|].
  destruct (Rlt_dec 1 alpha); [discriminate|].
  intros H; injection H as <-.
  rewrite <- (length_map inf_to_nan s).
  destruct (map inf_to_nan s); [reflexivity|].
  cbn [length]. rewrite ewm_from_length. reflexivity.
Qed.

Lemma alpha_in_range L : 1 <= L -> 0 < 2 / (L + 1) <= 1.
Proof.
  intros HL. split.
  - apply Rdiv_lt_0_compat; lra.
  - apply Rmult_le_reg_r with (L + 1); [lra|].
    unfold Rdiv. rewrite Rmult_assoc, Rinv_l by lra. lra.
Qed.

Lemma simulate_returns p df :
  1 <= lookback_vol p ->
  exists ev,
    ewm_mean (2 / (lookback_vol p + 1)) (map (fun x => fmul x x) (map ret df)) = Ok ev /\
    length ev = length df /\
    simulate p df = Ok (build_frame p df ev).
Proof.
  intros HL. destruct (alpha_in_range _ HL) as [Ha0 Ha1].
  unfold simulate, py_div. rewrite Reqb_false by lra. cbn [bind].
  destruct (ewm_mean (2 / (lookback_vol p + 1)) (map (fun x => fmul x x) (map ret df)))
    as [ev|e] eqn:E.
  - exists ev. split; [reflexivity|]. split; [|reflexivity].
    apply ewm_mean_length in E. rewrite !length_map in E. assumption.
  - unfold ewm_mean in E.
    destruct (Rle_dec (2 / (lookback_vol p + 1)) 0); [lra|].
    destruct (Rlt_dec 1 (2 / (lookback_vol p + 1))); [lra|discriminate].
Qed.

Lemma simulate_raises p df :
  lookback_vol p < 1 -> exists e, simulate p df = Raise e.
Proof.
  intros HL. unfold simulate, py_div.
  destruct (Req_dec_T (lookback_vol p + 1) 0) as [E|E].
  - rewrite Reqb_true by assumption. eexists; reflexivity.
  - rewrite Reqb_false by assumption. cbn [bind]. unfold ewm_mean.
    destruct (Rle_dec (2 / (lookback_vol p + 1)) 0); [eexists; reflexivity|].
    destruct (Rlt_dec 1 (2 / (lookback_vol p + 1))) as [|H1]; [eexists; reflexivity|].
    exfalso. apply H1.
    assert (Hpos : 0 < lookback_vol p + 1).
    { destruct (Rlt_dec 0 (lookback_vol p + 1)); [assumption|].
      exfalso. apply n.
      assert (lookback_vol p + 1 < 0) by lra.
      left. unfold Rdiv. replace 0 with (2 * 0) by ring.
      apply Rmult_lt_compat_l; [lra|]. apply Rinv_lt_0_compat; assumption. }
    apply Rmult_lt_reg_r with (lookback_vol p + 1); [assumption|].
    unfold Rdiv. rewrite Rmult_assoc, Rinv_l by lra. lra.
Qed.

(** ** The columns of the frame, row by row *)

Section Columns.
Variable p : params.
Variable df : list row.
Variable ev : series.
Hypothesis ev_length : length ev = length df.

Let fr := build_frame p df ev.

Lemma sma20_length : length (sma20 fr) = length df.
Proof.
  cbn [fr build_frame sma20]. unfold rolling_mean.
  rewrite length_map, length_seq, length_map. reflexivity.
Qed.

Lemma trend_ok_length : length (trend_ok fr) = length df.
Proof.
  pose proof sma20_length as H. cbn [fr build_frame sma20] in H.
  cbn [fr build_frame trend_ok]. unfold trend_signal.
  rewrite map2_length, H, length_map. lia.
Qed.

Lemma trend_ok_nth t :
  (t < length df)%nat ->
  exists c s, nth_error (map aapl_close df) t = Some c /\
              nth_error (sma20 fr) t = Some s /\
              nth_error (trend_ok fr) t =
              Some (if fgtb (Fin c) (fmul (Fin (1 + sma_band p)) s) then Fin 1 else Fin 0).
Proof.
  intros Ht.
  destruct (nth_error_in_range (map aapl_close df) t) as [c Hc];
    [rewrite length_map; assumption|].
  destruct (nth_error_in_range (sma20 fr) t) as [s Hs];
    [rewrite sma20_length; assumption|].
  exists c, s. split; [assumption|]. split; [assumption|].
  cbn [fr build_frame sma20] in Hs.
  cbn [fr build_frame trend_ok]. unfold trend_signal.
  rewrite nth_error_map2, Hc, Hs. reflexivity.
Qed.

Lemma trend_ok_binary t :
  (t < length df)%nat ->
  nth_error (trend_ok fr) t = Some (Fin 0) \/ nth_error (trend_ok fr) t = Some (Fin 1).
Proof.
  intros Ht. destruct (trend_ok_nth t Ht) as (c & s & _ & _ & H).
  rewrite H. destruct (fgtb _ _); auto.
Qed.

Lemma vol_hat_ann_nth t e :
  nth_error ev t = Some e ->
  nth_error (vol_hat_ann fr) t =
  Some (let v := fsqrt (fmul (Fin 252) e) in if feqb v (Fin 0) then NaN else v).
Proof.
  intros H. cbn [fr build_frame vol_hat_ann]. unfold replace_zero_nan.
  rewrite map_map, nth_error_map, H. reflexivity.
Qed.

Lemma w_raw_nth t e vh :
  nth_error ev t = Some e ->
  nth_error (vol_hat_ann fr) t = Some vh ->
  nth_error (w_raw fr) t =
  Some (let c := clip1 0 (lev_cap p) (fdiv (Fin (target_vol p)) vh) in
        if isna c then Fin 0 else c).
Proof.
  intros He H. rewrite (vol_hat_ann_nth t e He) in H. injection H as <-.
  cbn [fr build_frame w_raw]. unfold fillna, clip, replace_zero_nan.
  rewrite !map_map. rewrite nth_error_map, He. reflexivity.
Qed.

Lemma w_raw_fin t :
  (t < length df)%nat ->
  exists v, nth_error (w_raw fr) t = Some (Fin v) /\
            Rmin 0 (lev_cap p) <= v <= Rmax 0 (lev_cap p).
Proof.
  intros Ht.
  destruct (nth_error_in_range ev t) as [e He]; [lia|].
  rewrite (w_raw_nth t e _ He (vol_hat_ann_nth t e He)). cbv zeta.
  set (x := fdiv _ _).
  destruct x as [y| | |] eqn:Ex.
  1-3: destruct (clip1_range 0 (lev_cap p) x) as [v [Hv Hr]];
       [rewrite Ex; discriminate | rewrite Ex in Hv; rewrite Hv; simpl; eauto].
  exists 0. split; [reflexivity|].
  pose proof (Rmin_l 0 (lev_cap p)). pose proof (Rmax_l 0 (lev_cap p)). lra.
Qed.

Lemma w_nth t rw :
  nth_error df t = Some rw ->
  exists v b,
    nth_error (w_raw fr) t = Some (Fin v) /\
    Rmin 0 (lev_cap p) <= v <= Rmax 0 (lev_cap p) /\
    nth_error (trend_ok fr) t = Some (Fin b) /\ (b = 0 \/ b = 1) /\
    nth_error (w fr) t = Some (clip1 0 (lev_cap p) (fmul (Fin (v * b)) (gate p (vix rw)))).
Proof.
  intros Hrw.
  assert (Ht : (t < length df)%nat) by (apply nth_error_Some; congruence).
  destruct (w_raw_fin t Ht) as (v & Hv & Hr).
  assert (Hb : exists b, nth_error (trend_ok fr) t = Some (Fin b) /\ (b = 0 \/ b = 1)).
  { destruct (trend_ok_binary t Ht) as [H|H]; eauto. }
  destruct Hb as (b & Hb & Hb01).
  exists v, b. repeat (split; [assumption|]).
  pose proof (g_vix_nth p df ev t rw Hrw) as Hg.
  fold fr in Hg.
  cbn [fr build_frame w_raw] in Hv. cbn [fr build_frame trend_ok] in Hb.
  cbn [fr build_frame g_vix] in Hg.
  cbn [fr build_frame w]. unfold clip at 1.
  rewrite nth_error_map, !nth_error_map2, Hv, Hb, Hg. reflexivity.
Qed.

Lemma w_length : length (w fr) = length df.
Proof.
  pose proof trend_ok_length as Ht. cbn [fr build_frame trend_ok] in Ht.
  cbn [fr build_frame w]. unfold clip at 1.
  rewrite length_map, !map2_length, Ht.
  unfold fillna, clip, replace_zero_nan. rewrite !length_map. lia.
Qed.

Lemma w_fin t rw :
  nth_error df t = Some rw ->
  gate p (vix rw) <> NaN ->
  exists x, nth_error (w fr) t = Some (Fin x) /\
            Rmin 0 (lev_cap p) <= x <= Rmax 0 (lev_cap p).
Proof.
  intros Hrw Hg.
  destruct (w_nth t rw Hrw) as (v & b & _ & _ & _ & _ & Hw).
  rewrite Hw.
  assert (Hin : exists g, gate p (vix rw) = Fin g).
  { unfold gate in *. destruct (gate_raw p (vix rw)) as [y| | |] eqn:E.
    - destruct (clip1_range 0 1 (Fin y)) as [g [Hg' _]]; [discriminate|eauto].
    - destruct (clip1_range 0 1 PInf) as [g [Hg' _]]; [discriminate|eauto].
    - destruct (clip1_range 0 1 NInf) as [g [Hg' _]]; [discriminate|eauto].
    - exfalso. apply Hg. reflexivity. }
  destruct Hin as [g Hgv]. rewrite Hgv. cbn [fmul].
  destruct (clip1_range 0 (lev_cap p) (Fin (v * b * g))) as [x [Hx Hr]];
    [discriminate|].
  rewrite Hx. eauto.
Qed.

End Columns.

(** ** The composite weight *)

(** C1: in a run ([lookback_vol >= 1]) with a non-negative [lev_cap] and a
    non-zero [vix_width], every row of the frame has a weight that is a
    number of [0, lev_cap], and that weight is 0 on every row whose
    [trend_ok] is 0 or whose gate is 0. *)
Theorem weight_within_cap (p : params) (df : list row) :
  1 <= lookback_vol p -> 0 <= lev_cap p -> vix_width p <> 0 ->
  exists fr,
    simulate p df = Ok fr /\ length (w fr) = length df /\
    forall t, (t < length df)%nat ->
      exists v, nth_error (w fr) t = Some (Fin v) /\ 0 <= v <= lev_cap p /\
                (nth_error (trend_ok fr) t = Some (Fin 0) \/
                 nth_error (g_vix fr) t = Some (Fin 0) -> v = 0).
Proof.
  intros HL Hcap Hw.
  destruct (simulate_returns p df HL) as (ev & _ & Hlen & Hsim).
  exists (build_frame p df ev). split; [assumption|].
  split; [apply w_length; assumption|].
  intros t Ht.
  destruct (nth_error_in_range df t Ht) as [rw Hrw].
  destruct (w_nth p df ev Hlen t rw Hrw) as (v & b & _ & Hv & Hb & Hb01 & Hwt).
  destruct (gate_fin p (vix rw) Hw) as (g & Hg & Hg01).
  rewrite Hwt, Hg. cbn [fmul].
  destruct (clip1_range 0 (lev_cap p) (Fin (v * b * g))) as (x & Hx & Hr);
    [discriminate|].
  rewrite Rmin_left, Rmax_right in Hr by assumption.
  exists x. split; [rewrite Hx; reflexivity|]. split; [assumption|].
  intros Hz.
  assert (Hzero : v * b * g = 0).
  { destruct Hz as [Hz|Hz].
    - rewrite Hb in Hz. injection Hz as ->. ring.
    - rewrite (g_vix_nth p df ev t rw Hrw), Hg in Hz. injection Hz as ->. ring. }
  rewrite Hzero, clip1_inside in Hx by lra.
  injection Hx as <-. reflexivity.
Qed.

(** ** The cost-adjusted simulator *)

Lemma net_return_nth (ws wps r rf : series) (c : float) t wt wp rt rft :
  nth_error ws t = Some wt ->
  nth_error wps t = Some wp ->
  nth_error r t = Some rt ->
  nth_error rf t = Some rft ->
  nth_error (map2 fsub (blend wps r rf) (map (fmul c) (map fabs (map2 fsub ws wps)))) t =
  Some (fsub (fadd (fmul wp rt) (fmul (fsub (Fin 1) wp) rft))
             (fmul c (fabs (fsub wt wp)))).
Proof.
  intros Hws Hwps Hr Hrf. unfold blend.
  rewrite nth_error_map2.
  rewrite (nth_error_map2 fadd), !(nth_error_map2 fmul), nth_error_map.
  rewrite Hwps, Hr, Hrf.
  rewrite !nth_error_map, (nth_error_map2 fsub), Hws, Hwps.
  reflexivity.
Qed.

Section Simulator.
Variable p : params.
Variable df : list row.
Variable ev : series.
Hypothesis ev_length : length ev = length df.

Let fr := build_frame p df ev.
Let w_prev := fillna 0 (shift1 (w fr)).

(** The position held on a row: 0 on the first row, the previous row's
    weight afterwards. *)
Lemma w_prev_nth t wp :
  (t < length df)%nat ->
  match t with
  | O => wp = 0
  | S t' => nth_error (w fr) t' = Some (Fin wp)
  end ->
  nth_error w_prev t = Some (Fin wp).
Proof.
  intros Ht H. unfold w_prev, fillna. rewrite nth_error_map.
  pose proof (w_length p df ev ev_length) as Hlen. fold fr in Hlen.
  destruct t as [|t'].
  - subst wp. destruct (w fr) as [|a s]; [simpl in Hlen; lia|]. reflexivity.
  - rewrite nth_error_shift1 by lia. rewrite H. reflexivity.
Qed.

Lemma strat_ret_nth t rw wt wp :
  nth_error df t = Some rw ->
  nth_error (w fr) t = Some wt ->
  nth_error w_prev t = Some wp ->
  nth_error (strat_ret fr) t =
  Some (fsub (fadd (fmul wp (ret rw)) (fmul (fsub (Fin 1) wp) (rf_daily rw)))
             (fmul (Fin (cost_bps p / 10000)) (fabs (fsub wt wp)))).
Proof.
  intros Hrw Hwt Hwp.
  change (strat_ret fr) with
    (map2 fsub (blend w_prev (map ret df) (map rf_daily df))
          (map (fmul (Fin (cost_bps p / 10000))) (map fabs (map2 fsub (w fr) w_prev)))).
  apply net_return_nth; try assumption.
  - rewrite nth_error_map, Hrw. reflexivity.
  - rewrite nth_error_map, Hrw. reflexivity.
Qed.

Lemma strat_ret_length : length (strat_ret fr) = length df.
Proof.
  pose proof (w_length p df ev ev_length) as Hlen. fold fr in Hlen.
  cbn [fr build_frame w] in Hlen.
  cbn [fr build_frame strat_ret]. unfold blend.
  repeat first [ rewrite map2_length | rewrite length_map
               | rewrite fillna_length | rewrite shift1_length | rewrite Hlen ].
  lia.
Qed.

End Simulator.

(** C4: in a run ([lookback_vol >= 1]) with a non-zero [vix_width], the
    return of a row is earned with the previous row's weight (0 on the first
    row): [w_prev * r + (1 - w_prev) * rf] less [cost_bps / 10000] times the
    absolute change of weight. *)
Theorem strat_ret_uses_previous_weight (p : params) (df : list row) :
  1 <= lookback_vol p -> vix_width p <> 0 ->
  exists fr,
    simulate p df = Ok fr /\ length (strat_ret fr) = length df /\
    forall t rw, nth_error df t = Some rw ->
      exists wt wp,
        nth_error (w fr) t = Some (Fin wt) /\
        match t with
        | O => wp = 0
        | S t' => nth_error (w fr) t' = Some (Fin wp)
        end /\
        nth_error (strat_ret fr) t =
        Some (fsub (fadd (fmul (Fin wp) (ret rw))
                         (fmul (Fin (1 - wp)) (rf_daily rw)))
                   (fmul (Fin (cost_bps p / 10000)) (Fin (Rabs (wt - wp))))).
Proof.
  intros HL Hw.
  destruct (simulate_returns p df HL) as (ev & _ & Hlen & Hsim).
  exists (build_frame p df ev). split; [assumption|].
  split; [apply strat_ret_length; assumption|].
  intros t rw Hrw.
  assert (Ht : (t < length df)%nat) by (apply nth_error_Some; congruence).
  assert (Hfin : forall t' rw', nth_error df t' = Some rw' ->
                   exists x, nth_error (w (build_frame p df ev)) t' = Some (Fin x)).
  { intros t' rw' H'.
    destruct (w_fin p df ev Hlen t' rw' H') as (x & Hx & _); [|eauto].
    destruct (gate_fin p (vix rw') Hw) as (g & Hg & _). rewrite Hg. discriminate. }
  destruct (Hfin t rw Hrw) as [wt Hwt].
  assert (Hprev : exists wp, match t with
                             | O => wp = 0
                             | S t' => nth_error (w (build_frame p df ev)) t' = Some (Fin wp)
                             end).
  { destruct t as [|t']; [exists 0; reflexivity|].
    destruct (nth_error_in_range df t') as [rw' Hrw']; [lia|].
    apply (Hfin t' rw' Hrw'). }
  destruct Hprev as [wp Hwp].
  exists wt, wp. split; [assumption|]. split; [assumption|].
  rewrite (strat_ret_nth p df ev t rw (Fin wt) (Fin wp) Hrw Hwt
             (w_prev_nth p df ev Hlen t wp Ht Hwp)).
  reflexivity.
Qed.

(** ** The trend filter while the window is incomplete *)

Lemma rolling_mean_nth window xs t :
  (t < length xs)%nat ->
  nth_error (rolling_mean window xs) t =
  Some (if (S t <? window)%nat then NaN
        else fdiv (fsum (map Fin (firstn window (skipn (S t - window) xs))))
                  (Fin (INR window))).
Proof.
  intros Ht. unfold rolling_mean.
  rewrite nth_error_map, nth_error_seq.
  destruct (Nat.ltb_spec t (length xs)); [reflexivity | lia].
Qed.

Lemma clip1_zero hi : clip1 0 hi (Fin 0) = Fin 0.
Proof.
  unfold clip1. simpl.
  pose proof (Rmin_l 0 hi). pose proof (Rmax_l 0 hi).
  rewrite !Rltb_false by lra. reflexivity.
Qed.

Lemma incomplete_window_row p df ev t rw :
  length ev = length df ->
  nth_error df t = Some rw -> (S t < sma_window p)%nat ->
  nth_error (sma20 (build_frame p df ev)) t = Some NaN /\
  nth_error (trend_ok (build_frame p df ev)) t = Some (Fin 0).
Proof.
  intros Hlen Hrw Hwin.
  assert (Ht : (t < length df)%nat) by (apply nth_error_Some; congruence).
  assert (Hs : nth_error (sma20 (build_frame p df ev)) t = Some NaN).
  { cbn [build_frame sma20]. rewrite rolling_mean_nth by (rewrite length_map; assumption).
    destruct (Nat.ltb_spec (S t) (sma_window p)); [reflexivity | lia]. }
  split; [assumption|].
  destruct (trend_ok_nth p df ev t Ht) as (c & s & _ & Hs' & Htr).
  rewrite Hs in Hs'. injection Hs' as <-.
  rewrite Htr. reflexivity.
Qed.

(** C3, as the code has it: a row whose trailing window is incomplete has
    an undefined [sma20] but the defined signal [trend_ok = 0]; it stays in
    the frame with weight 0 and gets a strategy return like every row. *)
Theorem incomplete_window_kept_flat (p : params) (df : list row) :
  1 <= lookback_vol p -> vix_width p <> 0 ->
  exists fr,
    simulate p df = Ok fr /\ length (strat_ret fr) = length df /\
    forall t, (t < length df)%nat -> (S t < sma_window p)%nat ->
      nth_error (sma20 fr) t = Some NaN /\
      nth_error (trend_ok fr) t = Some (Fin 0) /\
      nth_error (w fr) t = Some (Fin 0) /\
      exists x, nth_error (strat_ret fr) t = Some x.
Proof.
  intros HL Hw.
  destruct (simulate_returns p df HL) as (ev & _ & Hlen & Hsim).
  exists (build_frame p df ev). split; [assumption|].
  pose proof (strat_ret_length p df ev Hlen) as Hsl.
  split; [assumption|].
  intros t Ht Hwin.
  destruct (nth_error_in_range df t Ht) as [rw Hrw].
  destruct (incomplete_window_row p df ev t rw Hlen Hrw Hwin) as [Hs Htr].
  repeat (split; [assumption|]).
  split.
  - destruct (w_nth p df ev Hlen t rw Hrw) as (v & b & _ & _ & Hb & _ & Hwt).
    rewrite Htr in Hb. injection Hb as <-.
    destruct (gate_fin p (vix rw) Hw) as (g & Hg & _).
    rewrite Hwt, Hg. cbn [fmul].
    replace (v * 0 * g) with 0 by ring.
    rewrite clip1_zero. reflexivity.
  - apply nth_error_in_range. rewrite Hsl. assumption.
Qed.

(** ** The EWMA variance *)

Lemma ewm_from_fin alpha xs : forall y,
  ewm_from alpha (Fin y) 1 (map Fin xs) = map Fin (ewm_real alpha y xs).
Proof.
  induction xs as [|x xs IH]; intros y; [reflexivity|].
  cbn [map ewm_from ewm_real notna isna negb feqb fmul fadd fdiv].
  destruct (Req_dec_T y x) as [E|E].
  - rewrite Reqb_true by assumption.
    replace (alpha * x + (1 - alpha) * y) with y by (subst; ring).
    rewrite IH. reflexivity.
  - rewrite Reqb_false by assumption.
    rewrite (Reqb_false (1 * (1 - alpha) + alpha) 0) by lra.
    replace ((1 * (1 - alpha) * y + alpha * x) / (1 * (1 - alpha) + alpha))
      with (alpha * x + (1 - alpha) * y) by (field; lra).
    rewrite IH. reflexivity.
Qed.


Lemma ewm_real_length alpha xs : forall y, length (ewm_real alpha y xs) = length xs.
Proof.
  induction xs as [|x xs IH]; intros y; [reflexivity|].
  cbn [ewm_real length]. rewrite IH. reflexivity.
Qed.

Lemma ewm_mean_fin alpha xs :
  0 < alpha <= 1 ->
  ewm_mean alpha (map Fin xs) = Ok (map Fin (ewm_reals alpha xs)).
Proof.
  intros [H0 H1]. unfold ewm_mean.
  destruct (Rle_dec alpha 0); [lra|].
  destruct (Rlt_dec 1 alpha); [lra|].
  rewrite map_map. cbn [inf_to_nan].
  destruct xs as [|x xs]; [reflexivity|].
  cbn [map ewm_reals]. rewrite ewm_from_fin. reflexivity.
Qed.


Lemma finite_returns_squares df :
  finite_returns df ->
  exists xs, map (fun x => fmul x x) (map ret df) = map Fin xs /\
             length xs = length df /\
             Forall (fun y => 0 <= y) xs /\
             forall t rw, nth_error df t = Some rw ->
               exists x, ret rw = Fin x /\ nth_error xs t = Some (x * x).
Proof.
  induction 1 as [|rw df [x Hx] _ IH].
  - exists []. repeat split; [constructor|]. intros [|t] rw H; discriminate.
  - destruct IH as (xs & Hm & Hl & Hpos & Hn).
    exists (x * x :: xs). cbn [map length]. rewrite Hx, Hm, Hl.
    repeat split.
    + constructor; [nra | assumption].
    + intros [|t] rw' H; cbn [nth_error] in *.
      * injection H as <-. eauto.
      * apply Hn; assumption.
Qed.



Lemma ewm_reals_length alpha xs : length (ewm_reals alpha xs) = length xs.
Proof.
  destruct xs; [reflexivity|]. cbn [ewm_reals length].
  rewrite ewm_real_length. reflexivity.
Qed.

(** With returns that are numbers the frame is built on the real-valued
    EWMA of their squares. *)
Lemma simulate_finite p df :
  1 <= lookback_vol p -> finite_returns df ->
  exists xs,
    length xs = length df /\
    Forall (fun y => 0 <= y) xs /\
    (forall t rw, nth_error df t = Some rw ->
       exists x, ret rw = Fin x /\ nth_error xs t = Some (x * x)) /\
    simulate p df =
    Ok (build_frame p df (map Fin (ewm_reals (2 / (lookback_vol p + 1)) xs))).
Proof.
  intros HL Hfin.
  destruct (finite_returns_squares df Hfin) as (xs & Hm & Hl & Hpos & Hn).
  exists xs. repeat (split; [assumption|]).
  pose proof (alpha_in_range _ HL) as Ha.
  unfold simulate, py_div. rewrite Reqb_false by lra. cbn [bind].
  rewrite Hm, ewm_mean_fin by assumption. reflexivity.
Qed.

Lemma vol_hat_ann_fin e :
  0 <= e ->
  (let v := fsqrt (fmul (Fin 252) (Fin e)) in if feqb v (Fin 0) then NaN else v) =
  (if Reqb (sqrt (252 * e)) 0 then NaN else Fin (sqrt (252 * e))).
Proof.
  intros He. cbn [fmul fsqrt]. rewrite Rltb_false by lra. reflexivity.
Qed.


(** ** A constant price series *)

Lemma In_map2 {A B C} (f : A -> B -> C) l1 l2 c :
  In c (map2 f l1 l2) -> exists a b, c = f a b /\ In a l1 /\ In b l2.
Proof.
  revert l2; induction l1 as [|a l1 IH]; intros [|b l2] H; try contradiction.
  cbn [map2] in H. destruct H as [<-|H].
  - exists a, b. repeat split; left; reflexivity.
  - destruct (IH l2 H) as (a' & b' & -> & Ha & Hb).
    exists a', b'. repeat split; right; assumption.
Qed.

Lemma pct_change_from_constant c xs :
  Forall (fun x => x = c) xs ->
  Forall (fun r => r = Fin 0 \/ r = NaN) (pct_change_from c xs).
Proof.
  induction 1 as [|x xs -> _ IH]; [constructor|].
  cbn [pct_change_from]. constructor; [|assumption].
  cbn [fdiv]. destruct (Req_dec_T c 0) as [E|E].
  - rewrite Reqb_true by assumption. subst c. unfold inf_of_sign.
    rewrite !Rltb_false by lra. right; reflexivity.
  - rewrite Reqb_false by assumption. left.
    cbn [fsub fneg fadd]. f_equal. field; assumption.
Qed.

Lemma pct_change_constant c xs :
  Forall (fun x => x = c) xs ->
  Forall (fun r => r = Fin 0 \/ r = NaN) (pct_change xs).
Proof.
  intros H. destruct xs as [|x xs]; [constructor|].
  inversion H; subst. cbn [pct_change].
  constructor; [right; reflexivity|]. apply pct_change_from_constant; assumption.
Qed.

Lemma prepare_constant c bars rw :
  Forall (fun b => b_close b = c) bars ->
  In rw (prepare bars) ->
  ret rw = Fin 0 /\ exists y, rf_daily rw = Fin y.
Proof.
  intros Hc Hin. unfold prepare in Hin.
  apply filter_In in Hin. destruct Hin as [Hin Hna].
  apply In_map2 in Hin. destruct Hin as (b & r & -> & _ & Hr).
  cbn [ret rf_daily] in *. split; [|eauto].
  assert (Hall : Forall (fun r => r = Fin 0 \/ r = NaN) (pct_change (map b_close bars))).
  { apply (pct_change_constant c). rewrite Forall_map. assumption. }
  rewrite Forall_forall in Hall. destruct (Hall r Hr) as [->| ->];
    [reflexivity | discriminate].
Qed.

Lemma ewm_real_zero alpha xs :
  Forall (fun x => x = 0) xs -> Forall (fun e => e = 0) (ewm_real alpha 0 xs).
Proof.
  induction 1 as [|x xs -> _ IH]; [constructor|].
  cbn [ewm_real]. replace (alpha * 0 + (1 - alpha) * 0) with 0 by ring.
  constructor; [reflexivity | assumption].
Qed.

Lemma ewm_reals_zero alpha xs :
  Forall (fun x => x = 0) xs -> Forall (fun e => e = 0) (ewm_reals alpha xs).
Proof.
  intros H. destruct xs as [|x xs]; [constructor|].
  inversion H; subst. cbn [ewm_reals].
  constructor; [reflexivity|]. apply ewm_real_zero; assumption.
Qed.

Lemma Forall_nth_error {A} (P : A -> Prop) l t a :
  Forall P l -> nth_error l t = Some a -> P a.
Proof.
  intros H Hn. rewrite Forall_forall in H. apply H.
  eapply nth_error_In; eassumption.
Qed.

(** C7, as the code has it: on a constant price every return is 0, the
    volatility estimate is replaced by NaN, and [w_raw], [w] are 0, so the
    strategy earns exactly the risk-free rate on every row. *)
Theorem constant_price_earns_risk_free (p : params) (bars : list bar) (c : R) :
  1 <= lookback_vol p -> vix_width p <> 0 ->
  Forall (fun b => b_close b = c) bars ->
  exists fr,
    simulate p (prepare bars) = Ok fr /\
    length (strat_ret fr) = length (prepare bars) /\
    forall t rw, nth_error (prepare bars) t = Some rw ->
      ret rw = Fin 0 /\
      nth_error (vol_hat_ann fr) t = Some NaN /\
      nth_error (w_raw fr) t = Some (Fin 0) /\
      nth_error (w fr) t = Some (Fin 0) /\
      nth_error (strat_ret fr) t = Some (rf_daily rw).
Proof.
  intros HL Hw Hc.
  set (df := prepare bars).
  assert (Hret : forall t rw, nth_error df t = Some rw ->
                   ret rw = Fin 0 /\ exists y, rf_daily rw = Fin y).
  { intros t rw H. apply (prepare_constant c bars); [assumption|].
    eapply nth_error_In; eassumption. }
  assert (Hfin : finite_returns df).
  { apply Forall_forall. intros rw Hin.
    destruct (In_nth_error _ _ Hin) as [t Ht].
    exists 0. apply (Hret t rw Ht). }
  destruct (simulate_finite p df HL Hfin) as (xs & Hl & _ & Hn & Hsim).
  set (alpha := 2 / (lookback_vol p + 1)) in *.
  set (ev := map Fin (ewm_reals alpha xs)) in *.
  assert (Hlen : length ev = length df)
    by (unfold ev; rewrite length_map, ewm_reals_length; assumption).
  assert (Hxs : Forall (fun x => x = 0) xs).
  { apply Forall_forall. intros x Hin.
    destruct (In_nth_error _ _ Hin) as [t Ht].
    destruct (nth_error_in_range df t) as [rw Hrw].
    { rewrite <- Hl. apply nth_error_Some. congruence. }
    destruct (Hn t rw Hrw) as (x' & Hx' & Hxt).
    destruct (Hret t rw Hrw) as [Hr0 _]. rewrite Hr0 in Hx'. injection Hx' as <-.
    rewrite Ht in Hxt. injection Hxt as ->. ring. }
  assert (Hev : forall t, (t < length df)%nat -> nth_error ev t = Some (Fin 0)).
  { intros t Ht. unfold ev. rewrite nth_error_map.
    destruct (nth_error_in_range (ewm_reals alpha xs) t) as [e He].
    { rewrite ewm_reals_length. lia. }
    rewrite He. cbn [option_map].
    rewrite (Forall_nth_error _ _ _ _ (ewm_reals_zero alpha xs Hxs) He). reflexivity. }
  assert (Hvol : forall t, (t < length df)%nat ->
                   nth_error (vol_hat_ann (build_frame p df ev)) t = Some NaN).
  { intros t Ht. rewrite (vol_hat_ann_nth p df ev t (Fin 0) (Hev t Ht)).
    rewrite (vol_hat_ann_fin 0) by lra.
    replace (252 * 0) with 0 by ring. rewrite sqrt_0, Reqb_true by reflexivity.
    reflexivity. }
  assert (Hwraw : forall t, (t < length df)%nat ->
                   nth_error (w_raw (build_frame p df ev)) t = Some (Fin 0)).
  { intros t Ht.
    rewrite (w_raw_nth p df ev t (Fin 0) NaN (Hev t Ht) (Hvol t Ht)). reflexivity. }
  assert (Hwt : forall t, (t < length df)%nat ->
                   nth_error (w (build_frame p df ev)) t = Some (Fin 0)).
  { intros t Ht. destruct (nth_error_in_range df t Ht) as [rw Hrw].
    destruct (w_nth p df ev Hlen t rw Hrw) as (v & b & Hv & _ & _ & _ & Hwv).
    rewrite (Hwraw t Ht) in Hv. injection Hv as <-.
    destruct (gate_fin p (vix rw) Hw) as (g & Hg & _).
    rewrite Hwv, Hg. cbn [fmul]. replace (0 * b * g) with 0 by ring.
    rewrite clip1_zero. reflexivity. }
  exists (build_frame p df ev). split; [assumption|].
  split; [apply strat_ret_length; assumption|].
  intros t rw Hrw.
  assert (Ht : (t < length df)%nat) by (apply nth_error_Some; congruence).
  destruct (Hret t rw Hrw) as [Hr0 [y Hy]].
  split; [assumption|].
  split; [apply Hvol; assumption|].
  split; [apply Hwraw; assumption|].
  split; [apply Hwt; assumption|].
  assert (Hwp : nth_error (fillna 0 (shift1 (w (build_frame p df ev)))) t = Some (Fin 0)).
  { apply w_prev_nth; [assumption | assumption |].
    destruct t as [|t']; [reflexivity|]. apply Hwt. lia. }
  rewrite (strat_ret_nth p df ev t rw (Fin 0) (Fin 0) Hrw (Hwt t Ht) Hwp).
  rewrite Hr0, Hy. cbn [fsub fneg fadd fmul fabs].
  f_equal. f_equal.
  replace (0 + - 0) with 0 by ring. rewrite Rabs_R0. ring.
Qed.

(** ** The performance evaluator *)

Lemma kpis_empty returns rf :
  dropna returns = [] -> kpis returns rf = Raise ZeroDivisionError.
Proof.
  intros H. unfold kpis. rewrite H. cbn [length INR].
  unfold py_div. rewrite Reqb_true by reflexivity. reflexivity.
Qed.

Lemma kpis_nonempty returns rf :
  dropna returns <> [] ->
  kpis returns rf =
  Ok (let r := dropna returns in
      let ex := match rf with None => r | Some rf => excess returns rf end in
      let ann_ret :=
        fsub (fpow (prod (map (fadd (Fin 1)) r)) (252 / INR (length r))) (Fin 1) in
      let maxdd := smin (drawdown (cumprod (map (fadd (Fin 1)) r))) in
      {| CAGR := ann_ret;
         AnnVol := fmul (std r) (fsqrt (Fin 252));
         Sharpe := if fgtb (std r) (Fin 0)
                   then fmul (fdiv (mean ex) (std r)) (fsqrt (Fin 252))
                   else NaN;
         MaxDD := maxdd;
         Calmar := if fltb maxdd (Fin 0) then fdiv ann_ret (fabs maxdd) else NaN |}).
Proof.
  intros H. unfold kpis, py_div.
  rewrite Reqb_false; [reflexivity|].
  apply not_0_INR. destruct (dropna returns); [congruence | discriminate].
Qed.

(** C10: on a series with no observation left after [dropna] the function
    raises [ZeroDivisionError] (the exponent [252 / n]) and returns no
    record; on every other series it returns one. *)
Theorem kpis_needs_observation (returns : series) (rf : option series) :
  (kpis returns rf = Raise ZeroDivisionError <-> dropna returns = []) /\
  ((exists k, kpis returns rf = Ok k) <-> dropna returns <> []).
Proof.
  split; split.
  - intros H. destruct (dropna returns) eqn:E; [reflexivity|].
    rewrite kpis_nonempty in H by (rewrite E; discriminate). discriminate.
  - apply kpis_empty.
  - intros [k Hk] E. rewrite (kpis_empty _ _ E) in Hk. discriminate.
  - intros H. rewrite (kpis_nonempty _ _ H). eexists; reflexivity.
Qed.

(** *** Series of numbers *)

Lemma dropna_fin xs : dropna (map Fin xs) = map Fin xs.
Proof.
  induction xs as [|x xs IH]; [reflexivity|].
  cbn [map dropna filter notna isna negb]. f_equal. apply IH.
Qed.

Lemma dropna_length s : (length (dropna s) <= length s)%nat.
Proof. apply filter_length_le. Qed.

Lemma std_short s : (length s <= 1)%nat -> std s = NaN.
Proof.
  intros H. unfold std. pose proof (dropna_length s).
  destruct (Nat.leb_spec (length (dropna s)) 1); [reflexivity | lia].
Qed.

(** *** Order facts for the drawdown *)

Lemma fmin_notna a b : notna a = true -> notna b = true -> notna (fmin a b) = true.
Proof. intros Ha Hb. unfold fmin. destruct (fltb b a); assumption. Qed.

Lemma fmin_le_l a b : notna a = true -> notna b = true -> fle (fmin a b) a.
Proof.
  intros Ha Hb. unfold fmin.
  destruct a as [x| | |], b as [y| | |]; try discriminate; cbn [fltb fle];
    try exact I; try lra.
  unfold Rltb. destruct (Rlt_dec y x); cbn [fle]; lra.
Qed.

Lemma fle_trans a b c : fle a b -> fle b c -> fle a c.
Proof.
  destruct a as [x| | |], b as [y| | |], c as [z| | |]; cbn [fle];
    try tauto; lra.
Qed.

Lemma fold_fmin_le v : forall a,
  notna a = true -> Forall (fun b => notna b = true) v ->
  fle (fold_left fmin v a) a.
Proof.
  induction v as [|b v IH]; intros a Ha Hv.
  - destruct a; try discriminate; cbn [fold_left fle]; try exact I; lra.
  - inversion Hv as [|? ? Hb Hv']; subst. cbn [fold_left].
    apply fle_trans with (fmin a b).
    + apply IH; [apply fmin_notna; assumption | assumption].
    + apply fmin_le_l; assumption.
Qed.

Lemma dropna_notna s : Forall (fun b => notna b = true) (dropna s).
Proof.
  apply Forall_forall. intros b Hb. apply filter_In in Hb. apply Hb.
Qed.

Lemma smin_le_head d s : fle (smin (Fin d :: s)) (Fin d).
Proof.
  unfold smin. cbn [dropna filter notna isna negb].
  apply fold_fmin_le; [reflexivity | apply dropna_notna].
Qed.

(** The drawdown of the first observation is 0 unless the equity is 0. *)
Lemma drawdown_head x rest :
  x <> -1 ->
  exists s,
    drawdown (cumprod (map (fadd (Fin 1)) (Fin x :: rest))) = Fin 0 :: s.
Proof.
  intros Hx. unfold drawdown, cumprod, cummax.
  cbn [map fadd cumprod_from isna fmul cummax_from fmax fltb map2 fdiv].
  rewrite Reqb_false by lra.
  cbn [fsub fneg fadd]. eexists. f_equal. f_equal. field. lra.
Qed.

(** *** The largest drawdown of a positive equity curve *)

Lemma fmax_fin a q :
  exists a', fmax (Fin a) (Fin q) = Fin a' /\ (a' = a \/ a' = q) /\
             a <= a' /\ q <= a'.
Proof.
  unfold fmax. cbn [fltb]. unfold Rltb.
  destruct (Rlt_dec a q); eexists; (split; [reflexivity|]);
    (split; [auto | lra]).
Qed.

Lemma cummax_from_fin qs : forall a,
  exists ms,
    cummax_from (Fin a) (map Fin qs) = map Fin ms /\
    length ms = length qs /\
    forall t M, nth_error ms t = Some M ->
      In M (a :: firstn (S t) qs) /\
      Forall (fun q => q <= M) (a :: firstn (S t) qs).
Proof.
  induction qs as [|q qs IH]; intros a.
  - exists []. split; [reflexivity|]. split; [reflexivity|].
    intros [|t] M H; discriminate.
  - destruct (fmax_fin a q) as (a' & Ha' & Hor & Haa & Hqa).
    destruct (IH a') as (ms & Hms & Hlen & Hn).
    exists (a' :: ms). cbn [map cummax_from isna]. rewrite Ha', Hms.
    split; [reflexivity|]. split; [cbn [length]; rewrite Hlen; reflexivity|].
    intros [|t] M HM; cbn [nth_error] in HM.
    + injection HM as <-. cbn [firstn]. split.
      * destruct Hor as [-> | ->]; [left; reflexivity | right; left; reflexivity].
      * constructor; [lra|]. constructor; [lra | constructor].
    + destruct (Hn t M HM) as [Hin Hall].
      inversion Hall as [|? ? HaM Hrest]; subst.
      change (firstn (S (S t)) (q :: qs)) with (q :: firstn (S t) qs).
      split.
      * destruct Hin as [<- | Hin].
        -- destruct Hor as [-> | ->]; [left; reflexivity | right; left; reflexivity].
        -- right; right; assumption.
      * constructor; [lra|]. constructor; [lra | assumption].
Qed.

Lemma cummax_fin qs :
  exists ms,
    cummax (map Fin qs) = map Fin ms /\ length ms = length qs /\
    forall t M, nth_error ms t = Some M -> running_max qs t M.
Proof.
  destruct qs as [|q qs].
  - exists []. split; [reflexivity|]. split; [reflexivity|].
    intros [|t] M H; discriminate.
  - destruct (cummax_from_fin qs q) as (ms & Hms & Hlen & Hn).
    exists (q :: ms). unfold cummax. cbn [map cummax_from isna fmax fltb].
    rewrite Hms. split; [reflexivity|].
    split; [cbn [length]; rewrite Hlen; reflexivity|].
    intros [|t] M HM; cbn [nth_error] in HM.
    + injection HM as <-. unfold running_max. cbn [firstn].
      split; [left; reflexivity | constructor; [lra | constructor]].
    + exact (Hn t M HM).
Qed.

Lemma running_max_unique qs t M M' :
  running_max qs t M -> running_max qs t M' -> M = M'.
Proof.
  intros [Hin Hall] [Hin' Hall'].
  rewrite Forall_forall in Hall, Hall'.
  specialize (Hall M' Hin'). specialize (Hall' M Hin). lra.
Qed.

Lemma nth_error_in_firstn {A} (l : list A) t a :
  nth_error l t = Some a -> In a (firstn (S t) l).
Proof.
  revert t; induction l as [|b l IH]; intros [|t] H; try discriminate.
  - injection H as <-. left; reflexivity.
  - cbn [nth_error] in H. right. apply IH. assumption.
Qed.

Lemma in_firstn {A} n : forall (l : list A) a, In a (firstn n l) -> In a l.
Proof.
  induction n as [|n IH]; intros [|b l] a H; try contradiction.
  cbn [firstn] in H. destruct H as [<- | H]; [left; reflexivity|].
  right. apply IH. assumption.
Qed.

Lemma drawdown_fin_values qs : forall ms,
  Forall (fun M => M <> 0) ms ->
  map (fun q => fsub q (Fin 1)) (map2 fdiv (map Fin qs) (map Fin ms)) =
  map Fin (map2 (fun q M => q / M - 1) qs ms).
Proof.
  induction qs as [|q qs IH]; intros [|M ms] Hms; try reflexivity.
  inversion Hms as [|? ? HM Hms']; subst.
  cbn [map map2 fdiv]. rewrite Reqb_false by assumption.
  rewrite (IH ms Hms'). reflexivity.
Qed.

Lemma fold_fmin_fin ds : forall a,
  exists m, fold_left fmin (map Fin ds) (Fin a) = Fin m /\
            In m (a :: ds) /\ Forall (fun d => m <= d) (a :: ds).
Proof.
  induction ds as [|d ds IH]; intros a.
  - exists a. split; [reflexivity|].
    split; [left; reflexivity | constructor; [lra | constructor]].
  - assert (Hmin : exists a', fmin (Fin a) (Fin d) = Fin a' /\
                              (a' = a \/ a' = d) /\ a' <= a /\ a' <= d).
    { unfold fmin. cbn [fltb]. unfold Rltb.
      destruct (Rlt_dec d a); eexists; (split; [reflexivity|]);
        (split; [auto | lra]). }
    destruct Hmin as (a' & Ha' & Hor & Haa & Had).
    destruct (IH a') as (m & Hm & Hin & Hall).
    exists m. cbn [map fold_left]. rewrite Ha'.
    split; [assumption|].
    inversion Hall as [|? ? Hma Hrest]; subst.
    split.
    + destruct Hin as [<- | Hin].
      * destruct Hor as [-> | ->]; [left; reflexivity | right; left; reflexivity].
      * right; right; assumption.
    + constructor; [lra|]. constructor; [lra | assumption].
Qed.

Lemma smin_fin d ds :
  exists m, smin (map Fin (d :: ds)) = Fin m /\
            In m (d :: ds) /\ Forall (fun x => m <= x) (d :: ds).
Proof.
  unfold smin. rewrite dropna_fin. cbn [map]. apply fold_fmin_fin.
Qed.

(** [smin (drawdown eq)] on an equity curve of positive numbers: the least
    of the ratios of an entry to the largest entry so far, less 1. *)
Lemma max_drawdown_fin qs :
  qs <> [] -> Forall (fun q => 0 < q) qs ->
  exists m,
    smin (drawdown (map Fin qs)) = Fin m /\ m <= 0 /\
    (exists t q M, nth_error qs t = Some q /\ running_max qs t M /\
                   m = q / M - 1) /\
    (forall t q M, nth_error qs t = Some q -> running_max qs t M ->
                   m <= q / M - 1).
Proof.
  intros Hne Hpos.
  destruct (cummax_fin qs) as (ms & Hms & Hlen & Hrun).
  assert (Hmpos : forall M, In M ms -> 0 < M).
  { intros M HM. destruct (In_nth_error _ _ HM) as [t Ht].
    destruct (Hrun t M Ht) as [Hin _].
    rewrite Forall_forall in Hpos. apply Hpos.
    apply (in_firstn _ _ _ Hin). }
  assert (Hnz : Forall (fun M => M <> 0) ms).
  { apply Forall_forall. intros M HM. specialize (Hmpos M HM). lra. }
  unfold drawdown. rewrite Hms, (drawdown_fin_values qs ms Hnz).
  set (ds := map2 (fun q M => q / M - 1) qs ms).
  assert (Hds : forall t d, nth_error ds t = Some d ->
            exists q M, nth_error qs t = Some q /\ nth_error ms t = Some M /\
                        d = q / M - 1).
  { intros t d Hd. unfold ds in Hd. rewrite nth_error_map2 in Hd.
    destruct (nth_error qs t) as [q|]; [|discriminate].
    destruct (nth_error ms t) as [M|]; [|discriminate].
    injection Hd as <-. eauto. }
  destruct ds as [|d0 ds'] eqn:Eds.
  { exfalso. assert (Hl : length ds = length qs).
    { unfold ds. rewrite map2_length, Hlen. lia. }
    rewrite Eds in Hl. destruct qs; [congruence | discriminate]. }
  destruct (smin_fin d0 ds') as (m & Hm & Hin & Hall).
  exists m. split; [assumption|].
  destruct (In_nth_error _ _ Hin) as [t Ht].
  destruct (Hds t m Ht) as (q & M & Hq & HM & Hmq).
  pose proof (Hrun t M HM) as HrM.
  assert (HMpos : 0 < M) by (apply Hmpos; eapply nth_error_In; eassumption).
  assert (HqM : q <= M).
  { destruct HrM as [_ Hb]. rewrite Forall_forall in Hb.
    apply Hb. apply nth_error_in_firstn. assumption. }
  split.
  { assert (q / M <= 1); [|lra].
    apply Rmult_le_reg_r with M; [assumption|].
    unfold Rdiv. rewrite Rmult_assoc, Rinv_l by lra. lra. }
  split; [exists t, q, M; split; [assumption|]; split; [exact HrM | assumption]|].
  intros t' q' M' Hq' Hr'.
  assert (Ht' : (t' < length ms)%nat).
  { rewrite Hlen. apply nth_error_Some. congruence. }
  destruct (nth_error_in_range ms t' Ht') as [M'' HM''].
  rewrite (running_max_unique qs t' M' M'' Hr' (Hrun t' M'' HM'')).
  assert (Hd' : nth_error (d0 :: ds') t' = Some (q' / M'' - 1)).
  { rewrite <- Eds. unfold ds. rewrite nth_error_map2, Hq', HM''. reflexivity. }
  rewrite Forall_forall in Hall. apply Hall.
  eapply nth_error_In; eassumption.
Qed.

(** C8, as the code has it: [Sharpe] is the annualised ratio when
    [std(r) > 0] and NaN otherwise, that is when [std(r)] is zero or
    undefined, as it is for a single observation; [MaxDD] is the least
    entry of [eq / eq.cummax() - 1], on an equity curve of positive numbers
    the least ratio of an entry to the largest entry so far, less 1, and it
    is [<= 0] when the first return is a number other than -1;
    [Calmar = CAGR / |MaxDD|] when [MaxDD < 0] and NaN otherwise. *)
Theorem kpi_degenerate_metrics (returns : series) (rf : option series)
    (r0 : float) (rest : series) :
  dropna returns = r0 :: rest ->
  exists k,
    kpis returns rf = Ok k /\
    let r := dropna returns in
    let ex := match rf with None => r | Some rf => excess returns rf end in
    let eq := cumprod (map (fadd (Fin 1)) r) in
    (fgtb (std r) (Fin 0) = true ->
       Sharpe k = fmul (fdiv (mean ex) (std r)) (fsqrt (Fin 252))) /\
    (fgtb (std r) (Fin 0) = false -> Sharpe k = NaN) /\
    (std r = Fin 0 -> Sharpe k = NaN) /\
    (rest = [] -> std r = NaN /\ Sharpe k = NaN) /\
    MaxDD k = smin (drawdown eq) /\
    (forall qs, eq = map Fin qs -> Forall (fun q => 0 < q) qs ->
       exists m,
         MaxDD k = Fin m /\ m <= 0 /\
         (exists t q M, nth_error qs t = Some q /\ running_max qs t M /\
                        m = q / M - 1) /\
         (forall t q M, nth_error qs t = Some q -> running_max qs t M ->
                        m <= q / M - 1)) /\
    ((exists x, r0 = Fin x /\ x <> -1) -> fle (MaxDD k) (Fin 0)) /\
    (fltb (MaxDD k) (Fin 0) = true -> Calmar k = fdiv (CAGR k) (fabs (MaxDD k))) /\
    (fltb (MaxDD k) (Fin 0) = false -> Calmar k = NaN).
Proof.
  intros Hr.
  assert (Hne : dropna returns <> []) by (rewrite Hr; discriminate).
  rewrite (kpis_nonempty returns rf Hne).
  eexists. split; [reflexivity|].
  cbv zeta. cbn [Sharpe MaxDD Calmar CAGR].
  split; [intros ->; reflexivity|].
  split; [intros ->; reflexivity|].
  split.
  { intros ->. cbn [fgtb fltb]. rewrite Rltb_false by lra. reflexivity. }
  split.
  { intros ->. assert (Hs : std (dropna returns) = NaN).
    { apply std_short. rewrite Hr. simpl. lia. }
    rewrite Hs. split; reflexivity. }
  split; [reflexivity|].
  split.
  { intros qs Hqs Hpos. rewrite Hqs. apply max_drawdown_fin; [|assumption].
    intros ->. apply (f_equal (@length float)) in Hqs.
    unfold cumprod in Hqs. rewrite Hr in Hqs.
    cbn [map cumprod_from] in Hqs. destruct (isna (fadd (Fin 1) r0)); discriminate. }
  split.
  { intros (x & -> & Hx). rewrite Hr.
    destruct (drawdown_head x rest Hx) as [s Hs]. rewrite Hs.
    apply smin_le_head. }
  split; intros ->; reflexivity.
Qed.

(** ** The volatility-matched baseline *)

Lemma fsqrt_cases a :
  fsqrt a = NaN \/ fsqrt a = PInf \/ exists v, fsqrt a = Fin v /\ 0 <= v.
Proof.
  destruct a as [x| | |]; cbn [fsqrt]; auto.
  destruct (Rltb x 0); auto.
  right; right. eexists; split; [reflexivity | apply sqrt_pos].
Qed.

Lemma sqrt_252_pos : 0 < sqrt 252.
Proof. apply sqrt_lt_R0. lra. Qed.

Lemma annualised_vol_cases s :
  annualised_vol s = NaN \/ annualised_vol s = PInf \/
  exists v, annualised_vol s = Fin v /\ 0 <= v.
Proof.
  pose proof sqrt_252_pos as H252.
  unfold annualised_vol. cbn [fsqrt]. rewrite Rltb_false by lra.
  assert (Hs : std s = NaN \/ std s = PInf \/ exists v, std s = Fin v /\ 0 <= v).
  { unfold std. destruct (length (dropna s) <=? 1)%nat; [auto|]. apply fsqrt_cases. }
  destruct Hs as [-> | [-> | (v & -> & Hv)]]; cbn [fmul].
  - auto.
  - unfold inf_of_sign. rewrite Rltb_true by assumption. auto.
  - right; right. eexists; split; [reflexivity|]. apply Rmult_le_pos; lra.
Qed.

Lemma np_clip_one : np_clip (Fin 1) 0 3 = Fin 1.
Proof.
  unfold np_clip, np_maximum, np_minimum, fmax, fmin.
  cbn [isna orb fltb]. rdecide. cbn [isna orb fltb]. rdecide. reflexivity.
Qed.

Lemma bh_vm_ret_nth p df ev t rw :
  nth_error df t = Some rw ->
  nth_error (bh_vm_ret (build_frame p df ev)) t =
  Some (fadd (fmul (w_bh (build_frame p df ev)) (ret rw))
             (fmul (fsub (Fin 1) (w_bh (build_frame p df ev))) (rf_daily rw))).
Proof.
  intros Hrw.
  set (wb := w_bh (build_frame p df ev)).
  change (bh_vm_ret (build_frame p df ev)) with
    (map2 fadd (map (fmul wb) (map ret df))
               (map (fmul (fsub (Fin 1) wb)) (map rf_daily df))).
  rewrite nth_error_map2, !nth_error_map, Hrw. reflexivity.
Qed.

(** C9, as the code has it: the scale factor is
    [clip(strat_vol / bh_vol, 0, 3)] when [bh_vol > 0] and 1 otherwise, that
    is when [bh_vol] is zero or undefined (as with fewer than two rows);
    the baseline return of a row is [w_bh * r + (1 - w_bh) * rf]. *)
Theorem vol_matched_baseline (p : params) (df : list row) :
  1 <= lookback_vol p ->
  exists fr,
    simulate p df = Ok fr /\
    bh_ret fr = map ret df /\
    let bh_vol := annualised_vol (bh_ret fr) in
    let strat_vol := annualised_vol (strat_ret fr) in
    (fgtb bh_vol (Fin 0) = true -> w_bh fr = np_clip (fdiv strat_vol bh_vol) 0 3) /\
    (fgtb bh_vol (Fin 0) = false ->
       (bh_vol = Fin 0 \/ bh_vol = NaN) /\ w_bh fr = Fin 1) /\
    ((length df <= 1)%nat -> bh_vol = NaN /\ w_bh fr = Fin 1) /\
    forall t rw, nth_error df t = Some rw ->
      nth_error (bh_vm_ret fr) t =
      Some (fadd (fmul (w_bh fr) (ret rw))
                 (fmul (fsub (Fin 1) (w_bh fr)) (rf_daily rw))).
Proof.
  intros HL.
  destruct (simulate_returns p df HL) as (ev & _ & Hlen & Hsim).
  exists (build_frame p df ev). split; [assumption|].
  split; [reflexivity|].
  cbv zeta.
  set (bv := annualised_vol (bh_ret (build_frame p df ev))).
  set (sv := annualised_vol (strat_ret (build_frame p df ev))).
  assert (Hwb : w_bh (build_frame p df ev) =
                np_clip (if fgtb bv (Fin 0) then fdiv sv bv else Fin 1) 0 3)
    by reflexivity.
  assert (Hfalse : fgtb bv (Fin 0) = false ->
                   (bv = Fin 0 \/ bv = NaN) /\ w_bh (build_frame p df ev) = Fin 1).
  { intros Hb. split.
    - destruct (annualised_vol_cases (bh_ret (build_frame p df ev)))
        as [H | [H | (v & H & Hv)]]; fold bv in H.
      + auto.
      + rewrite H in Hb. discriminate.
      + rewrite H in Hb. cbn [fgtb fltb] in Hb.
        left. rewrite H. f_equal.
        unfold Rltb in Hb. destruct (Rlt_dec 0 v); [discriminate | lra].
    - rewrite Hwb, Hb. apply np_clip_one. }
  split; [intros Hb; rewrite Hwb, Hb; reflexivity|].
  split; [assumption|].
  split.
  - intros Hshort.
    assert (Hnan : bv = NaN).
    { unfold bv, annualised_vol. rewrite std_short; [reflexivity|].
      cbn [build_frame bh_ret]. rewrite length_map. assumption. }
    split; [assumption|]. apply Hfalse. rewrite Hnan. reflexivity.
  - intros t rw Hrw. apply bh_vm_ret_nth. assumption.
Qed.

(** ** Which parameters can stop the run *)

(** C2, as the code has it: nothing validates the parameters.  Lines 99-128
    raise exactly when [lookback_vol < 1] (a zero divisor at -1, otherwise
    the range check of the EWMA constructor), whatever [vix_width] and
    [lev_cap] are; in every other case they return the frame. *)
Theorem only_lookback_can_raise (p : params) (df : list row) :
  ((exists e, simulate p df = Raise e) <-> lookback_vol p < 1) /\
  ((exists fr, simulate p df = Ok fr) <-> 1 <= lookback_vol p).
Proof.
  split; split.
  - intros [e He]. destruct (Rlt_dec (lookback_vol p) 1) as [|Hn]; [assumption|].
    destruct (simulate_returns p df) as (ev & _ & _ & Hok); [lra|].
    rewrite Hok in He. discriminate.
  - apply simulate_raises.
  - intros [fr Hfr]. destruct (Rle_dec 1 (lookback_vol p)) as [|Hn]; [assumption|].
    destruct (simulate_raises p df) as [e He]; [lra|].
    rewrite He in Hfr. discriminate.
  - intros HL. destruct (simulate_returns p df HL) as (ev & _ & _ & Hok). eauto.
Qed.

(** ** Frames whose inputs are numbers *)

Lemma fdiv_nan_r a : fdiv a NaN = NaN.
Proof. destruct a; reflexivity. Qed.

Lemma dropna_nonempty s t a :
  nth_error s t = Some a -> notna a = true -> dropna s <> [].
Proof.
  intros Hn Ha E.
  assert (Hin : In a (dropna s)).
  { apply filter_In. split; [eapply nth_error_In; eassumption | assumption]. }
  rewrite E in Hin. contradiction.
Qed.

Lemma strat_ret_fin p df ev :
  length ev = length df ->
  (forall rw, In rw df ->
     gate p (vix rw) <> NaN /\ (exists x, ret rw = Fin x) /\
     exists y, rf_daily rw = Fin y) ->
  forall t, (t < length df)%nat ->
    exists z, nth_error (strat_ret (build_frame p df ev)) t = Some (Fin z).
Proof.
  intros Hlen Hrows t Ht.
  assert (Hfin : forall t' rw', nth_error df t' = Some rw' ->
                   exists x, nth_error (w (build_frame p df ev)) t' = Some (Fin x)).
  { intros t' rw' H'.
    destruct (Hrows rw' (nth_error_In _ _ H')) as (Hg & _ & _).
    destruct (w_fin p df ev Hlen t' rw' H' Hg) as (x & Hx & _). eauto. }
  destruct (nth_error_in_range df t Ht) as [rw Hrw].
  destruct (Hfin t rw Hrw) as [wt Hwt].
  assert (Hprev : exists wp, match t with
                             | O => wp = 0
                             | S t' => nth_error (w (build_frame p df ev)) t' = Some (Fin wp)
                             end).
  { destruct t as [|t']; [exists 0; reflexivity|].
    destruct (nth_error_in_range df t') as [rw' Hrw']; [lia|].
    apply (Hfin t' rw' Hrw'). }
  destruct Hprev as [wp Hwp].
  rewrite (strat_ret_nth p df ev t rw (Fin wt) (Fin wp) Hrw Hwt
             (w_prev_nth p df ev Hlen t wp Ht Hwp)).
  destruct (Hrows rw (nth_error_In _ _ Hrw)) as (_ & (x & ->) & (y & ->)).
  cbn [fsub fneg fadd fmul fabs]. eauto.
Qed.

Lemma simulate_single p rw :
  1 <= lookback_vol p ->
  simulate p [rw] = Ok (build_frame p [rw] [inf_to_nan (fmul (ret rw) (ret rw))]).
Proof.
  intros HL. destruct (alpha_in_range _ HL) as [Ha0 Ha1].
  unfold simulate, py_div. rewrite Reqb_false by lra. cbn [bind map].
  unfold ewm_mean.
  destruct (Rle_dec (2 / (lookback_vol p + 1)) 0); [lra|].
  destruct (Rlt_dec 1 (2 / (lookback_vol p + 1))); [lra|]. reflexivity.
Qed.

Lemma w_bh_short p df ev :
  (length df <= 1)%nat ->
  annualised_vol (bh_ret (build_frame p df ev)) = NaN /\
  w_bh (build_frame p df ev) = Fin 1.
Proof.
  intros Hshort.
  assert (Hnan : annualised_vol (map ret df) = NaN).
  { unfold annualised_vol. rewrite std_short; [reflexivity|].
    rewrite length_map. assumption. }
  split; [exact Hnan|].
  change (w_bh (build_frame p df ev)) with
    (np_clip (if fgtb (annualised_vol (map ret df)) (Fin 0)
              then fdiv (annualised_vol (strat_ret (build_frame p df ev)))
                        (annualised_vol (map ret df))
              else Fin 1) 0 3).
  rewrite Hnan. apply np_clip_one.
Qed.

(** A frame of one row of numbers goes through [main] when the gate of the
    row is defined. *)
Lemma main_single_row p bars rw x y :
  1 <= lookback_vol p ->
  prepare bars = [rw] -> ret rw = Fin x -> rf_daily rw = Fin y ->
  gate p (vix rw) <> NaN ->
  exists out, main p bars = Ok out.
Proof.
  intros HL Hprep Hx Hy Hg.
  unfold main. rewrite Hprep, (simulate_single p rw HL). cbn [bind].
  set (fr := build_frame p [rw] [inf_to_nan (fmul (ret rw) (ret rw))]).
  assert (Hs : exists z, nth_error (strat_ret fr) 0 = Some (Fin z)).
  { apply strat_ret_fin; [reflexivity | | simpl; lia].
    intros rw' [<-|[]]. split; [assumption|]. split; eauto. }
  destruct Hs as [z Hz].
  rewrite (kpis_nonempty (strat_ret fr)) by (eapply dropna_nonempty; [eassumption|reflexivity]).
  cbn [bind].
  assert (Hb : nth_error (bh_ret fr) 0 = Some (Fin x)).
  { cbn [fr build_frame bh_ret map nth_error]. rewrite Hx. reflexivity. }
  rewrite (kpis_nonempty (bh_ret fr)) by (eapply dropna_nonempty; [eassumption|reflexivity]).
  cbn [bind].
  assert (Hv : exists v, nth_error (bh_vm_ret fr) 0 = Some (Fin v)).
  { unfold fr. rewrite (bh_vm_ret_nth p [rw] _ 0 rw) by reflexivity.
    destruct (w_bh_short p [rw] [inf_to_nan (fmul (ret rw) (ret rw))]) as [_ ->];
      [simpl; lia|].
    rewrite Hx, Hy. cbn [fsub fneg fadd fmul]. eauto. }
  destruct Hv as [v Hv].
  rewrite (kpis_nonempty (bh_vm_ret fr)) by (eapply dropna_nonempty; [eassumption|reflexivity]).
  cbn [bind]. eexists; reflexivity.
Qed.

(** ** Concrete runs *)

Lemma prepare_flat_bars : prepare flat_bars = [flat_row].
Proof.
  unfold prepare, flat_bars, flat_bar, flat_row.
  cbn [map b_close b_vix b_us2y pct_change pct_change_from map2 fdiv].
  rdecide. cbn [fsub fneg fadd filter ret notna isna negb].
  replace (100 / 100 + - (1)) with 0 by lra. reflexivity.
Qed.

Lemma gate_raw_zero_width : gate_raw zero_width 40 = NInf.
Proof.
  unfold gate_raw, zero_width. cbn [vix_cut vix_width fsub fneg fadd fdiv].
  rdecide. unfold inf_of_sign. rdecide. reflexivity.
Qed.

Lemma gate_zero_width : gate zero_width 40 = Fin 0.
Proof.
  unfold gate. rewrite gate_raw_zero_width.
  unfold clip1. cbn [isna fltb]. rewrite Rmin_left by lra. reflexivity.
Qed.

(** C2 fails on the code: with [vix_width = 0] the run is not rejected, the
    quotient of line 108 is infinite and [main] returns its frame and
    KPIs; a negative [lev_cap] is accepted in the same way. *)
Lemma zero_width_not_rejected :
  vix_width zero_width = 0 /\
  gate_raw zero_width 40 = NInf /\
  (exists out, main zero_width flat_bars = Ok out) /\
  lev_cap negative_cap < 0 /\
  (exists out, main negative_cap flat_bars = Ok out).
Proof.
  split; [reflexivity|]. split; [apply gate_raw_zero_width|].
  split; [|split].
  - apply (main_single_row zero_width flat_bars flat_row 0 (5 / 100 / 252)).
    + simpl. lra.
    + apply prepare_flat_bars.
    + reflexivity.
    + reflexivity.
    + cbn [vix flat_row]. rewrite gate_zero_width. discriminate.
  - simpl. lra.
  - apply (main_single_row negative_cap flat_bars flat_row 0 (5 / 100 / 252)).
    + simpl. lra.
    + apply prepare_flat_bars.
    + reflexivity.
    + reflexivity.
    + destruct (gate_fin negative_cap (vix flat_row)) as (g & Hg & _);
        [simpl; lra | rewrite Hg; discriminate].
Qed.

Lemma gate_default_defined V : gate default_params V <> NaN.
Proof.
  destruct (gate_fin default_params V) as (g & Hg & _); [simpl; lra|].
  rewrite Hg. discriminate.
Qed.

(** C3 fails on the code: with the window of 20 days the first row has an
    incomplete window, yet it carries the signal [trend_ok = 0] and a
    strategy return. *)
Lemma incomplete_window_row_is_simulated :
  exists fr,
    simulate default_params [calm_row] = Ok fr /\
    (1 < sma_window default_params)%nat /\
    nth_error (trend_ok fr) 0 = Some (Fin 0) /\
    exists x, nth_error (strat_ret fr) 0 = Some (Fin x).
Proof.
  assert (HL : 1 <= lookback_vol default_params) by (simpl; lra).
  eexists. split; [apply (simulate_single default_params calm_row HL)|].
  split; [simpl; lia|].
  split.
  - apply (incomplete_window_row default_params [calm_row] _ 0 calm_row);
      [reflexivity | reflexivity | simpl; lia].
  - apply strat_ret_fin; [reflexivity | | simpl; lia].
    intros rw [<-|[]]. split; [apply gate_default_defined|].
    split; eexists; reflexivity.
Qed.

Lemma flat_row_frame :
  exists fr,
    simulate default_params [flat_row] = Ok fr /\
    nth_error (ewma_var fr) 0 = Some (Fin 0) /\
    nth_error (vol_hat_ann fr) 0 = Some NaN.
Proof.
  assert (HL : 1 <= lookback_vol default_params) by (simpl; lra).
  assert (Hz : fmul (ret flat_row) (ret flat_row) = Fin 0).
  { cbn [ret flat_row fmul]. f_equal. ring. }
  eexists. split; [apply (simulate_single default_params flat_row HL)|].
  rewrite Hz. cbn [inf_to_nan]. split; [reflexivity|].
  rewrite (vol_hat_ann_nth default_params [flat_row] [Fin 0] 0 (Fin 0)) by reflexivity.
  cbv zeta. cbn [fmul fsqrt]. rdecide. replace (252 * 0) with 0 by ring.
  rewrite sqrt_0. cbn [feqb]. rdecide. reflexivity.
Qed.


(** C7 fails on the code: on two days at the same price the column
    [vol_hat_ann] holds NaN, not 0. *)
Lemma constant_price_vol_is_nan :
  exists fr,
    simulate default_params (prepare flat_bars) = Ok fr /\
    nth_error (vol_hat_ann fr) 0 = Some NaN /\
    nth_error (vol_hat_ann fr) 0 <> Some (Fin 0).
Proof.
  destruct flat_row_frame as (fr & Hfr & _ & Hv).
  exists fr. rewrite prepare_flat_bars.
  split; [assumption|]. split; [assumption|]. rewrite Hv. discriminate.
Qed.

(** C8 fails on the code: for one observation [std] is NaN, not 0, and
    [Sharpe] is NaN all the same; and after a first return of -1 the
    drawdown is NaN throughout, so [MaxDD] is NaN and not [<= 0]. *)
Lemma sharpe_nan_without_zero_std :
  (exists k, kpis [Fin (1 / 100)] None = Ok k /\
             Sharpe k = NaN /\ std [Fin (1 / 100)] <> Fin 0) /\
  (exists k, kpis [Fin (- 1)] None = Ok k /\
             MaxDD k = NaN /\ ~ fle (MaxDD k) (Fin 0)).
Proof.
  split.
  - rewrite kpis_nonempty by discriminate.
    eexists. split; [reflexivity|].
    cbv zeta. cbn [Sharpe].
    rewrite !std_short by (simpl; lia).
    split; [reflexivity | discriminate].
  - rewrite kpis_nonempty by discriminate.
    eexists. split; [reflexivity|].
    cbv zeta. cbn [MaxDD].
    assert (Hm : smin (drawdown (cumprod (map (fadd (Fin 1)) (dropna [Fin (- 1)])))) = NaN).
    { unfold drawdown, cumprod, cummax.
      cbn [dropna filter notna isna negb map fadd cumprod_from fmul
           cummax_from fmax fltb map2 fdiv].
      rdecide. unfold inf_of_sign. rdecide. reflexivity. }
    rewrite Hm. split; [reflexivity | intros []].
Qed.

(** C9 fails on the code: on a frame of one row [bh_vol] is NaN, not 0, and
    the scale factor is 1, where [clip(strat_vol / bh_vol, 0, 3)] is NaN. *)
Lemma single_row_scale_is_one :
  exists fr,
    simulate default_params [calm_row] = Ok fr /\
    annualised_vol (bh_ret fr) = NaN /\
    annualised_vol (bh_ret fr) <> Fin 0 /\
    w_bh fr = Fin 1 /\
    np_clip (fdiv (annualised_vol (strat_ret fr)) (annualised_vol (bh_ret fr))) 0 3 = NaN.
Proof.
  assert (HL : 1 <= lookback_vol default_params) by (simpl; lra).
  eexists. split; [apply (simulate_single default_params calm_row HL)|].
  destruct (w_bh_short default_params [calm_row]
              [inf_to_nan (fmul (ret calm_row) (ret calm_row))]) as [Hv Hw];
    [simpl; lia|].
  rewrite Hv, Hw, fdiv_nan_r.
  split; [reflexivity|]. split; [discriminate|]. split; reflexivity.
Qed.

(** ** The theorems at concrete inputs *)

Lemma weight_within_cap_witness :
  exists fr, simulate default_params [calm_row] = Ok fr /\
             exists v, nth_error (w fr) 0 = Some (Fin v) /\ 0 <= v <= 13 / 10.
Proof.
  destruct (weight_within_cap default_params [calm_row]) as (fr & Hfr & _ & Hall).
  - simpl; lra.
  - simpl; lra.
  - simpl; lra.
  - exists fr. split; [assumption|].
    destruct (Hall 0%nat) as (v & Hv & Hr & _); [simpl; lia|].
    exists v. split; assumption.
Defined.

Lemma incomplete_window_kept_flat_witness :
  exists fr, simulate default_params [calm_row] = Ok fr /\
             nth_error (w fr) 0 = Some (Fin 0).
Proof.
  destruct (incomplete_window_kept_flat default_params [calm_row])
    as (fr & Hfr & _ & Hall).
  - simpl; lra.
  - simpl; lra.
  - exists fr. split; [assumption|].
    destruct (Hall 0%nat) as (_ & _ & Hw & _); [simpl; lia | simpl; lia | assumption].
Defined.

Lemma strat_ret_uses_previous_weight_witness :
  exists fr, simulate default_params [calm_row] = Ok fr /\
             length (strat_ret fr) = 1%nat.
Proof.
  destruct (strat_ret_uses_previous_weight default_params [calm_row])
    as (fr & Hfr & Hlen & _).
  - simpl; lra.
  - simpl; lra.
  - exists fr. split; assumption.
Defined.

Lemma gate_nonincreasing_clipped_witness :
  gate default_params 30 = Fin 1 /\ gate default_params 45 = Fin 0.
Proof.
  destruct (gate_nonincreasing_clipped default_params) as (_ & _ & H1 & H0 & _).
  - simpl; lra.
  - split; [apply H1 | apply H0]; simpl; lra.
Defined.


Lemma constant_price_earns_risk_free_witness :
  exists fr, simulate default_params (prepare flat_bars) = Ok fr /\
             length (strat_ret fr) = length (prepare flat_bars).
Proof.
  destruct (constant_price_earns_risk_free default_params flat_bars 100)
    as (fr & Hfr & Hlen & _).
  - simpl; lra.
  - simpl; lra.
  - repeat constructor.
  - exists fr. split; assumption.
Defined.

Lemma kpi_degenerate_metrics_witness :
  exists k m, kpis [Fin (1 / 100); Fin (- (1 / 100))] None = Ok k /\
              MaxDD k = Fin m /\ m <= 0 /\ fle (MaxDD k) (Fin 0).
Proof.
  destruct (kpi_degenerate_metrics [Fin (1 / 100); Fin (- (1 / 100))] None
              (Fin (1 / 100)) [Fin (- (1 / 100))])
    as (k & Hk & _ & _ & _ & _ & _ & Hmin & Hdd & _).
  - reflexivity.
  - destruct (Hmin [1 * (1 + 1 / 100); 1 * (1 + 1 / 100) * (1 + - (1 / 100))])
      as (m & Hm & Hm0 & _).
    + reflexivity.
    + constructor; [lra|]. constructor; [lra | constructor].
    + exists k, m. split; [assumption|]. split; [assumption|].
      split; [assumption|]. apply Hdd.
      exists (1 / 100). split; [reflexivity | lra].
Defined.

Lemma vol_matched_baseline_witness :
  exists fr, simulate default_params [calm_row] = Ok fr /\ w_bh fr = Fin 1.
Proof.
  destruct (vol_matched_baseline default_params [calm_row])
    as (fr & Hfr & _ & _ & _ & Hshort & _).
  - simpl; lra.
  - exists fr. split; [assumption|]. apply Hshort. simpl; lia.
Defined.

(** * Further properties of the script *)

(** ** Choosing the value column *)

Lemma value_column_ok columns cands c :
  value_column columns cands = Ok c <->
  exists pre post, cands = pre ++ c :: post /\ In c columns /\
                   forall d, In d pre -> ~ In d columns.
Proof.
  induction cands as [|a cands IH]; cbn [value_column].
  - split; [discriminate|]. intros (pre & post & H & _). destruct pre; discriminate.
  - destruct (in_dec string_dec a columns) as [Hin|Hout].
    + split.
      * intros H. injection H as <-. exists [], cands.
        repeat split; auto; intros d [].
      * intros (pre & post & H & Hc & Hpre).
        destruct pre as [|d pre]; cbn [app] in H; injection H as -> ->.
        -- reflexivity.
        -- exfalso. apply (Hpre d); [left; reflexivity | assumption].
    + rewrite IH. split.
      * intros (pre & post & -> & Hc & Hpre).
        exists (a :: pre), post. repeat split; auto.
        intros d [<-|Hd]; [assumption | apply Hpre; assumption].
      * intros (pre & post & H & Hc & Hpre).
        destruct pre as [|d pre]; cbn [app] in H; injection H as -> ->.
        -- contradiction.
        -- exists pre, post. repeat split; auto.
           intros d' Hd'. apply Hpre. right; assumption.
Qed.

Lemma value_column_raises columns cands e :
  value_column columns cands = Raise e <->
  e = ValueError /\ forall c, In c cands -> ~ In c columns.
Proof.
  induction cands as [|a cands IH]; cbn [value_column].
  - split.
    + intros H. injection H as <-. split; [reflexivity | intros c []].
    + intros [-> _]. reflexivity.
  - destruct (in_dec string_dec a columns) as [Hin|Hout].
    + split; [discriminate|]. intros [_ H]. exfalso.
      apply (H a); [left; reflexivity | assumption].
    + rewrite IH. split; intros [He H]; (split; [assumption|]).
      * intros c [<-|Hc]; [assumption | apply H; assumption].
      * intros c Hc. apply H. right; assumption.
Qed.

(** The column that [load_bbg_csv] reads is the first candidate, in the
    order of the candidate list, that names a column of the table; the
    function raises, and then [ValueError], exactly when no candidate names
    one. *)
Theorem value_column_first_match (columns cands : list string) :
  (forall c, value_column columns cands = Ok c <->
             exists pre post, cands = pre ++ c :: post /\ In c columns /\
                              forall d, In d pre -> ~ In d columns) /\
  (forall e, value_column columns cands = Raise e <->
             e = ValueError /\ forall c, In c cands -> ~ In c columns).
Proof.
  split; [apply value_column_ok | apply value_column_raises].
Qed.

(** ** Aligning the three series *)

Lemma ffill_from_some last s :
  ffill_from last (map Some s) = map Some s.
Proof.
  revert last; induction s as [|x s IH]; intros last; [reflexivity|].
  cbn [map ffill_from]. rewrite IH. reflexivity.
Qed.

Lemma complete_rows_some bars :
  complete_rows (map Some (map b_close bars)) (map Some (map b_vix bars))
                (map Some (map b_us2y bars)) = bars.
Proof.
  induction bars as [|[c v u] bars IH]; [reflexivity|].
  cbn [map complete_rows b_close b_vix b_us2y]. rewrite IH. reflexivity.
Qed.

(** A table without a missing cell goes through the alignment unchanged. *)
Theorem align_complete_table (bars : list bar) :
  align (map cells_of_bar bars) = bars.
Proof.
  unfold align, ffill. rewrite !map_map. cbn [cells_of_bar c_close c_vix c_us2y].
  rewrite <- (map_map b_close Some), <- (map_map b_vix Some), <- (map_map b_us2y Some).
  rewrite !ffill_from_some. apply complete_rows_some.
Qed.

Lemma ffill_from_app s1 : forall last s2,
  ffill_from last (s1 ++ s2) =
  ffill_from last s1 ++ ffill_from (fold_left keep_last s1 last) s2.
Proof.
  induction s1 as [|x s1 IH]; intros last s2; [reflexivity|].
  cbn [app ffill_from fold_left]. rewrite IH. reflexivity.
Qed.

Lemma complete_rows_app c1 v1 u1 c2 v2 u2 :
  length v1 = length c1 -> length u1 = length c1 ->
  complete_rows (c1 ++ c2) (v1 ++ v2) (u1 ++ u2) =
  complete_rows c1 v1 u1 ++ complete_rows c2 v2 u2.
Proof.
  revert v1 u1; induction c1 as [|c c1 IH]; intros [|v v1] [|u u1] Hv Hu;
    try discriminate; [reflexivity|].
  cbn [app complete_rows]. injection Hv as Hv. injection Hu as Hu.
  rewrite (IH v1 u1 Hv Hu).
  destruct c, v, u; reflexivity.
Qed.

Lemma ffill_from_length last s : length (ffill_from last s) = length s.
Proof.
  revert last; induction s as [|x s IH]; intros last; [reflexivity|].
  cbn [ffill_from length]. rewrite IH. reflexivity.
Qed.

Lemma align_app t1 t2 :
  align (t1 ++ t2) =
  align t1 ++
  complete_rows (map c_close t2)
    (ffill_from (last_seen (map c_vix t1)) (map c_vix t2))
    (ffill_from (last_seen (map c_us2y t1)) (map c_us2y t2)).
Proof.
  unfold align, ffill. rewrite !map_app, !ffill_from_app.
  apply complete_rows_app; rewrite ffill_from_length, !length_map; reflexivity.
Qed.

Lemma complete_rows_length c : forall v u,
  (length (complete_rows c v u) <= length c)%nat.
Proof.
  induction c as [|x c IH]; intros [|y v] [|z u]; cbn [complete_rows length];
    try lia.
  specialize (IH v u). destruct x, y, z; cbn [length]; lia.
Qed.

Lemma keep_last_some s : forall v,
  exists v', fold_left keep_last s (Some v) = Some v'.
Proof.
  induction s as [|x s IH]; intros v; [eexists; reflexivity|].
  cbn [fold_left]. destruct x as [y|]; cbn [keep_last]; apply IH.
Qed.

Lemma never_seen_no_rows c s : forall u,
  fold_left keep_last s None = None -> complete_rows c (ffill_from None s) u = [].
Proof.
  revert c; induction s as [|x s IH]; intros c u H.
  - destruct c; reflexivity.
  - cbn [fold_left] in H. destruct x as [y|]; cbn [keep_last] in H.
    + destruct (keep_last_some s y) as [v' Hv']. congruence.
    + cbn [ffill_from]. destruct c as [|pc c]; [reflexivity|].
      destruct u as [|pu u]; [reflexivity|].
      cbn [complete_rows]. rewrite (IH c u H). destruct pc; reflexivity.
Qed.

(** The alignment never fills backwards.  When later dates are appended to
    a table, the rows of the earlier dates stay as they were and the added
    rows are those of the later dates alone, filled from the last values
    seen before them; so no more rows are added than dates, and the dates up
    to which no index level has been seen give no row, whatever follows. *)
Theorem align_keeps_earlier_rows (t1 t2 : list cells) :
  align (t1 ++ t2) =
  align t1 ++
  complete_rows (map c_close t2)
    (ffill_from (last_seen (map c_vix t1)) (map c_vix t2))
    (ffill_from (last_seen (map c_us2y t1)) (map c_us2y t2)) /\
  (length (align (t1 ++ t2)) <= length (align t1) + length t2)%nat /\
  (last_seen (map c_vix t1) = None ->
   align t1 = [] /\ (length (align (t1 ++ t2)) <= length t2)%nat).
Proof.
  pose proof (align_app t1 t2) as Happ.
  assert (Hlen : (length (align (t1 ++ t2)) <= length (align t1) + length t2)%nat).
  { rewrite Happ, length_app.
    match goal with |- context [complete_rows ?c ?v ?u] =>
      pose proof (complete_rows_length c v u) as Hc end.
    rewrite length_map in Hc. lia. }
  split; [exact Happ|]. split; [exact Hlen|].
  intros Hnone.
  assert (Hempty : align t1 = []).
  { unfold align, ffill. apply never_seen_no_rows. exact Hnone. }
  split; [exact Hempty|]. rewrite Hempty in Hlen. exact Hlen.
Qed.

Lemma last_seen_app s x :
  last_seen (s ++ [x]) = match x with Some _ => x | None => last_seen s end.
Proof. unfold last_seen. rewrite fold_left_app. reflexivity. Qed.

(** The newest date of a table gives a row exactly when it has a price and
    the volatility index and the yield have each been seen on it or before;
    the row then carries their latest values. *)
Theorem align_newest_row (t : list cells) (r : cells) :
  align (t ++ [r]) =
  align t ++
  match c_close r, last_seen (map c_vix (t ++ [r])),
        last_seen (map c_us2y (t ++ [r])) with
  | Some pc, Some pv, Some pu => [{| b_close := pc; b_vix := pv; b_us2y := pu |}]
  | _, _, _ => []
  end.
Proof.
  rewrite align_app, !map_app. cbn [map]. rewrite !last_seen_app.
  apply f_equal. cbn [ffill_from complete_rows]. reflexivity.
Qed.

(** ** Returns of the aligned frame *)

Lemma prepare_rows_from bars : forall prev,
  prev <> 0 -> Forall (fun b => b_close b <> 0) bars ->
  let rows :=
    filter (fun rw => notna (ret rw))
      (map2 (fun b r =>
               {| aapl_close := b_close b; vix := b_vix b; us2y_yield := b_us2y b;
                  ret := r; rf_daily := Fin (b_us2y b / 100 / 252) |})
            bars (pct_change_from prev (map b_close bars))) in
  length rows = length bars /\
  forall t b q, nth_error bars t = Some b ->
    nth_error (prev :: map b_close bars) t = Some q ->
    nth_error rows t =
    Some {| aapl_close := b_close b; vix := b_vix b; us2y_yield := b_us2y b;
            ret := Fin (b_close b / q - 1);
            rf_daily := Fin (b_us2y b / 100 / 252) |}.
Proof.
  induction bars as [|b0 bars IH]; intros prev Hp Hall; cbv zeta.
  - split; [reflexivity|]. intros [|t] b q H; discriminate.
  - inversion Hall as [|? ? Hb0 Hall']; subst.
    cbn [map pct_change_from map2 fdiv]. rewrite Reqb_false by assumption.
    cbn [fsub fneg fadd filter ret notna isna negb].
    destruct (IH (b_close b0) Hb0 Hall') as [Hlen Hnth].
    split; [cbn [length]; rewrite Hlen; reflexivity|].
    intros [|t] b q Hb Hq; cbn [nth_error] in *.
    + injection Hb as <-. injection Hq as <-. reflexivity.
    + apply Hnth; assumption.
Qed.

(** With prices that are never zero, [k + 1] aligned dates give [k] rows:
    the first date is dropped, and each later one carries its own close,
    index level and yield, the return [P(t) / P(t-1) - 1] on the close
    before it, and the daily rate [yield / 100 / 252]. *)
Theorem prepare_drops_first_row (b0 : bar) (bars : list bar) :
  Forall (fun b => b_close b <> 0) (b0 :: bars) ->
  length (prepare (b0 :: bars)) = length bars /\
  forall t b prev, nth_error bars t = Some b ->
    nth_error (b0 :: bars) t = Some prev ->
    nth_error (prepare (b0 :: bars)) t =
    Some {| aapl_close := b_close b; vix := b_vix b; us2y_yield := b_us2y b;
            ret := Fin (b_close b / b_close prev - 1);
            rf_daily := Fin (b_us2y b / 100 / 252) |}.
Proof.
  intros Hall. inversion Hall as [|? ? Hb0 Hall']; subst.
  unfold prepare. cbn [map pct_change map2 filter ret notna isna negb].
  destruct (prepare_rows_from bars (b_close b0) Hb0 Hall') as [Hlen Hnth].
  split; [assumption|].
  intros t b prev Hb Hprev. apply Hnth; [assumption|].
  change (b_close b0 :: map b_close bars) with (map b_close (b0 :: bars)).
  rewrite nth_error_map, Hprev. reflexivity.
Qed.

Lemma prepare_drops_first_row_witness :
  length (prepare flat_bars) = 1%nat.
Proof.
  destruct (prepare_drops_first_row flat_bar [flat_bar]) as [Hlen _].
  - repeat constructor; simpl; lra.
  - exact Hlen.
Defined.

Lemma prepare_short bars : (length bars <= 1)%nat -> prepare bars = [].
Proof.
  destruct bars as [|b [|b' bars]]; intros H; [reflexivity | reflexivity |].
  simpl in H. lia.
Qed.

(** On fewer than two aligned dates [main] never returns: no row is left
    after line 86, and unless [lookback_vol < 1] has stopped the run
    before, the first [kpis] call raises [ZeroDivisionError]. *)
Theorem main_needs_two_dates (p : params) (bars : list bar) :
  (length bars <= 1)%nat ->
  (exists e, main p bars = Raise e) /\
  (1 <= lookback_vol p -> main p bars = Raise ZeroDivisionError).
Proof.
  intros Hshort.
  assert (Hok : 1 <= lookback_vol p -> main p bars = Raise ZeroDivisionError).
  { intros HL. unfold main. rewrite (prepare_short bars Hshort).
    destruct (simulate_returns p [] HL) as (ev & _ & Hlen & ->).
    destruct ev; [|discriminate]. cbn [bind].
    rewrite kpis_empty by reflexivity. reflexivity. }
  split; [|assumption].
  destruct (Rle_dec 1 (lookback_vol p)) as [HL|HL].
  - rewrite (Hok HL). eauto.
  - unfold main. destruct (simulate_raises p (prepare bars)) as [e ->]; [lra|].
    cbn [bind]. eexists; reflexivity.
Qed.

Lemma main_needs_two_dates_witness :
  main default_params [flat_bar] = Raise ZeroDivisionError.
Proof.
  destruct (main_needs_two_dates default_params [flat_bar]) as [_ H].
  - simpl; lia.
  - apply H. simpl; lra.
Defined.

(** ** The scale factor of the baseline *)

Lemma np_clip_range a lo hi :
  lo <= hi ->
  (a = NaN /\ np_clip a lo hi = NaN) \/
  (a <> NaN /\ exists v, np_clip a lo hi = Fin v /\ lo <= v <= hi).
Proof.
  intros Hlh. unfold np_clip, np_maximum, np_minimum, fmax, fmin.
  destruct a as [x| | |]; cbn [isna orb fltb].
  - right. split; [discriminate|]. unfold Rltb.
    destruct (Rlt_dec x lo); cbn [isna orb fltb]; unfold Rltb.
    + destruct (Rlt_dec hi lo); eexists; (split; [reflexivity | lra]).
    + destruct (Rlt_dec hi x); eexists; (split; [reflexivity | lra]).
  - right. split; [discriminate|]. eexists; split; [reflexivity | lra].
  - right. split; [discriminate|]. cbn [isna orb fltb]. unfold Rltb.
    destruct (Rlt_dec hi lo); eexists; (split; [reflexivity | lra]).
  - left. split; reflexivity.
Qed.

(** The scale factor of the volatility-matched baseline is NaN or a number
    of [0, 3]. *)
Theorem scale_factor_range (p : params) (df : list row) :
  1 <= lookback_vol p ->
  exists fr,
    simulate p df = Ok fr /\
    (w_bh fr = NaN \/ exists b, w_bh fr = Fin b /\ 0 <= b <= 3).
Proof.
  intros HL.
  destruct (simulate_returns p df HL) as (ev & _ & Hlen & Hsim).
  exists (build_frame p df ev). split; [assumption|].
  change (w_bh (build_frame p df ev)) with
    (np_clip (if fgtb (annualised_vol (map ret df)) (Fin 0)
              then fdiv (annualised_vol (strat_ret (build_frame p df ev)))
                        (annualised_vol (map ret df))
              else Fin 1) 0 3).
  match goal with |- context [np_clip ?a 0 3] =>
    destruct (np_clip_range a 0 3) as [[_ H]|[_ H]]; [lra | auto | auto]
  end.
Qed.

Lemma scale_factor_range_witness :
  exists fr, simulate default_params [calm_row] = Ok fr /\
             (w_bh fr = NaN \/ exists b, w_bh fr = Fin b /\ 0 <= b <= 3).
Proof.
  apply (scale_factor_range default_params [calm_row]). simpl; lra.
Defined.

(** ** No row looks ahead *)

Lemma firstn_map2 {A B C} (f : A -> B -> C) n : forall l1 l2,
  firstn n (map2 f l1 l2) = map2 f (firstn n l1) (firstn n l2).
Proof.
  induction n as [|n IH]; intros [|a l1] [|b l2]; try reflexivity.
  cbn [map2 firstn]. rewrite IH. reflexivity.
Qed.

Lemma removelast_firstn_cons {A} (a : A) s :
  removelast (a :: s) = firstn (length s) (a :: s).
Proof.
  revert a; induction s as [|b s IH]; intros a; [reflexivity|].
  change (removelast (a :: b :: s)) with (a :: removelast (b :: s)).
  rewrite IH. reflexivity.
Qed.

Lemma shift1_firstn_cons (s : series) : shift1 s = firstn (length s) (NaN :: s).
Proof.
  destruct s as [|a s]; [reflexivity|].
  cbn [shift1 length firstn]. rewrite removelast_firstn_cons. reflexivity.
Qed.

Lemma firstn_cons_firstn {A} (a : A) k n s :
  (k <= n)%nat -> firstn k (a :: firstn n s) = firstn k (a :: s).
Proof.
  intros Hk. destruct k as [|k]; [reflexivity|].
  cbn [firstn]. f_equal. rewrite firstn_firstn. f_equal. lia.
Qed.

Lemma firstn_shift1 n (s : series) : firstn n (shift1 s) = shift1 (firstn n s).
Proof.
  rewrite !shift1_firstn_cons, firstn_firstn, length_firstn.
  rewrite firstn_cons_firstn by lia. reflexivity.
Qed.

Lemma firstn_ewm_from alpha n : forall s weighted old_wt,
  firstn n (ewm_from alpha weighted old_wt s) =
  ewm_from alpha weighted old_wt (firstn n s).
Proof.
  induction n as [|n IH]; intros [|cur s] weighted old_wt; try reflexivity.
  cbn [firstn ewm_from].
  destruct (notna weighted); [destruct (notna cur)|];
    cbn [firstn]; rewrite IH; reflexivity.
Qed.

Lemma ewm_mean_firstn alpha s ev n :
  ewm_mean alpha s = Ok ev ->
  ewm_mean alpha (firstn n s) = Ok (firstn n ev).
Proof.
  unfold ewm_mean.
  destruct (Rle_dec alpha 0); [discriminate|].
  destruct (Rlt_dec 1 alpha); [discriminate|].
  intros H. injection H as <-. f_equal.
  rewrite <- firstn_map.
  destruct (map inf_to_nan s) as [|x s']; [destruct n; reflexivity|].
  destruct n as [|n]; [reflexivity|].
  cbn [firstn]. rewrite firstn_ewm_from. reflexivity.
Qed.

Lemma firstn_seq_min n : forall a len,
  firstn n (seq a len) = seq a (Nat.min n len).
Proof.
  induction n as [|n IH]; intros a [|len]; try reflexivity.
  cbn [seq firstn Nat.min]. rewrite IH. reflexivity.
Qed.

Lemma firstn_rolling_mean window n xs :
  firstn n (rolling_mean window xs) = rolling_mean window (firstn n xs).
Proof.
  unfold rolling_mean.
  rewrite firstn_map, firstn_seq_min, length_firstn.
  apply map_ext_in. intros t Ht. apply in_seq in Ht.
  destruct (Nat.ltb_spec (S t) window) as [|Hge]; [reflexivity|].
  rewrite skipn_firstn_comm, firstn_firstn.
  replace (Nat.min window (n - (S t - window))) with window by lia.
  reflexivity.
Qed.

Lemma firstn_frame_columns p df ev n :
  w (build_frame p (firstn n df) (firstn n ev)) = firstn n (w (build_frame p df ev)) /\
  strat_ret (build_frame p (firstn n df) (firstn n ev)) =
  firstn n (strat_ret (build_frame p df ev)).
Proof.
  cbn [build_frame w strat_ret].
  unfold blend, trend_signal, clip, fillna, replace_zero_nan.
  repeat first [ rewrite firstn_map2 | rewrite firstn_map | rewrite firstn_shift1
               | rewrite firstn_rolling_mean ].
  split; reflexivity.
Qed.

(** The weight and the strategy return of a row depend on no later row: run
    on the first [n] rows of a frame, lines 99-116 give the first [n]
    weights and returns of the run on the whole frame. *)
Theorem weights_use_no_later_row (p : params) (df : list row) (n : nat) :
  1 <= lookback_vol p ->
  exists fr frn,
    simulate p df = Ok fr /\ simulate p (firstn n df) = Ok frn /\
    w frn = firstn n (w fr) /\ strat_ret frn = firstn n (strat_ret fr).
Proof.
  intros HL.
  destruct (simulate_returns p df HL) as (ev & Hev & _ & Hsim).
  exists (build_frame p df ev), (build_frame p (firstn n df) (firstn n ev)).
  split; [assumption|]. split; [|apply firstn_frame_columns].
  destruct (alpha_in_range _ HL) as [Ha0 Ha1].
  unfold simulate, py_div. rewrite Reqb_false by lra. cbn [bind].
  rewrite <- !firstn_map, (ewm_mean_firstn _ _ ev n Hev). reflexivity.
Qed.

Lemma weights_use_no_later_row_witness :
  exists fr frn,
    simulate default_params [calm_row; flat_row] = Ok fr /\
    simulate default_params [calm_row] = Ok frn /\
    w frn = firstn 1 (w fr).
Proof.
  destruct (weights_use_no_later_row default_params [calm_row; flat_row] 1)
    as (fr & frn & H1 & H2 & H3 & _).
  - simpl; lra.
  - exists fr, frn. repeat split; assumption.
Defined.

(** ** The raw weight *)



(** ** Out of the market *)

Lemma flat_row_return p df ev t rw x y :
  length ev = length df ->
  nth_error df t = Some rw -> ret rw = Fin x -> rf_daily rw = Fin y ->
  nth_error (w (build_frame p df ev)) t = Some (Fin 0) ->
  match t with
  | O => True
  | S t' => nth_error (w (build_frame p df ev)) t' = Some (Fin 0)
  end ->
  nth_error (strat_ret (build_frame p df ev)) t = Some (rf_daily rw).
Proof.
  intros Hlen Hrw Hx Hy Hw Hprev.
  assert (Ht : (t < length df)%nat) by (apply nth_error_Some; congruence).
  assert (Hwp : nth_error (fillna 0 (shift1 (w (build_frame p df ev)))) t = Some (Fin 0)).
  { apply w_prev_nth; [assumption | assumption |].
    destruct t; [reflexivity | assumption]. }
  rewrite (strat_ret_nth p df ev t rw (Fin 0) (Fin 0) Hrw Hw Hwp).
  rewrite Hx, Hy. cbn [fsub fneg fadd fmul fabs]. f_equal. f_equal.
  replace (0 + - 0) with 0 by ring. rewrite Rabs_R0. ring.
Qed.

(** A row that holds no position and follows a row without position (or is
    the first row) earns exactly the risk-free rate, without cost; with a
    non-zero [vix_width] this is the case of every row whose trend window
    is incomplete. *)
Theorem flat_position_earns_risk_free (p : params) (df : list row) :
  1 <= lookback_vol p ->
  exists fr,
    simulate p df = Ok fr /\
    (forall t rw x y, nth_error df t = Some rw ->
       ret rw = Fin x -> rf_daily rw = Fin y ->
       nth_error (w fr) t = Some (Fin 0) ->
       match t with
       | O => True
       | S t' => nth_error (w fr) t' = Some (Fin 0)
       end ->
       nth_error (strat_ret fr) t = Some (rf_daily rw)) /\
    (vix_width p <> 0 ->
     forall t rw x y, nth_error df t = Some rw ->
       ret rw = Fin x -> rf_daily rw = Fin y ->
       (S t < sma_window p)%nat ->
       nth_error (strat_ret fr) t = Some (rf_daily rw)).
Proof.
  intros HL.
  destruct (simulate_returns p df HL) as (ev & _ & Hlen & Hsim).
  exists (build_frame p df ev). split; [assumption|].
  split.
  - intros t rw x y. apply flat_row_return. assumption.
  - intros Hw.
    assert (Hflat : forall t, (t < length df)%nat -> (S t < sma_window p)%nat ->
                      nth_error (w (build_frame p df ev)) t = Some (Fin 0)).
    { intros t Ht Hwin. destruct (nth_error_in_range df t Ht) as [rw Hrw].
      destruct (incomplete_window_row p df ev t rw Hlen Hrw Hwin) as [_ Htr].
      destruct (w_nth p df ev Hlen t rw Hrw) as (v & b & _ & _ & Hb & _ & Hwt).
      rewrite Htr in Hb. injection Hb as <-.
      destruct (gate_fin p (vix rw) Hw) as (g & Hg & _).
      rewrite Hwt, Hg. cbn [fmul]. replace (v * 0 * g) with 0 by ring.
      rewrite clip1_zero. reflexivity. }
    intros t rw x y Hrw Hx Hy Hwin.
    assert (Ht : (t < length df)%nat) by (apply nth_error_Some; congruence).
    apply (flat_row_return p df ev t rw x y Hlen Hrw Hx Hy (Hflat t Ht Hwin)).
    destruct t as [|t']; [exact I|]. apply Hflat; lia.
Qed.

Lemma flat_position_earns_risk_free_witness :
  exists fr, simulate default_params [calm_row] = Ok fr /\
             nth_error (strat_ret fr) 0 = Some (rf_daily calm_row).
Proof.
  destruct (flat_position_earns_risk_free default_params [calm_row])
    as (fr & Hfr & _ & H).
  - simpl; lra.
  - exists fr. split; [assumption|].
    apply (H ltac:(simpl; lra) 0%nat calm_row (1 / 100) (5 / 100 / 252));
      try reflexivity.
    simpl; lia.
Defined.

(** ** Equity curves and drawdowns *)

Lemma drawdown_from_range qs : forall m,
  0 < m -> Forall (fun q => 0 < q) qs ->
  Forall (fun d => exists x, d = Fin x /\ -1 <= x <= 0)
    (map (fun q => fsub q (Fin 1))
         (map2 fdiv (map Fin qs) (cummax_from (Fin m) (map Fin qs)))).
Proof.
  induction qs as [|q qs IH]; intros m Hm Hqs; [constructor|].
  inversion Hqs as [|? ? Hq Hqs']; subst.
  cbn [map cummax_from isna].
  assert (Hcases : exists m', fmax (Fin m) (Fin q) = Fin m' /\
                              0 < m' /\ q <= m').
  { unfold fmax. cbn [fltb]. unfold Rltb.
    destruct (Rlt_dec m q); eexists; (split; [reflexivity|lra]). }
  destruct Hcases as (m' & Hm' & Hm'0 & Hqm). rewrite Hm'.
  cbn [map2 fdiv map]. rewrite Reqb_false by lra.
  cbn [fsub fneg fadd]. constructor; [|apply IH; assumption].
  eexists; split; [reflexivity|].
  assert (H1 : q / m' <= 1).
  { apply Rmult_le_reg_r with m'; [assumption|].
    unfold Rdiv. rewrite Rmult_assoc, Rinv_l by lra. lra. }
  assert (H0 : 0 < q / m') by (apply Rdiv_lt_0_compat; assumption).
  lra.
Qed.

(** The drawdown of a positive equity curve (line 61) starts at 0 and
    stays between -1 and 0 on every row. *)
Theorem drawdown_in_range (qs : list R) :
  Forall (fun q => 0 < q) qs ->
  length (drawdown (map Fin qs)) = length qs /\
  (qs <> [] -> nth_error (drawdown (map Fin qs)) 0 = Some (Fin 0)) /\
  Forall (fun d => exists x, d = Fin x /\ -1 <= x <= 0) (drawdown (map Fin qs)).
Proof.
  intros Hqs. unfold drawdown, cummax.
  destruct qs as [|q qs].
  - split; [reflexivity|]. split; [congruence | constructor].
  - inversion Hqs as [|? ? Hq Hqs']; subst.
    cbn [map cummax_from isna fmax fltb map2 fdiv].
    rewrite Reqb_false by lra. cbn [fsub fneg fadd].
    replace (q / q + - (1)) with 0 by (field; lra).
    pose proof (drawdown_from_range qs q Hq Hqs') as Hrest.
    split; [|split].
    + cbn [length]. f_equal.
      rewrite length_map, map2_length, length_map.
      assert (Hc : forall s acc, length (cummax_from acc s) = length s).
      { induction s as [|a s IH]; intros acc; [reflexivity|].
        cbn [cummax_from]. destruct (isna a); cbn [length]; rewrite IH; reflexivity. }
      rewrite Hc, length_map. lia.
    + intros _. reflexivity.
    + constructor; [|exact Hrest]. exists 0. split; [reflexivity | lra].
Qed.

Lemma drawdown_in_range_witness :
  nth_error (drawdown (map Fin [2; 1])) 0 = Some (Fin 0).
Proof.
  destruct (drawdown_in_range [2; 1]) as (_ & H & _).
  - repeat constructor; lra.
  - apply H. discriminate.
Defined.

Lemma no_loss_drawdown xs : forall a,
  0 < a -> Forall (fun x => 0 <= x) xs ->
  Forall (fun d => d = Fin 0)
    (map (fun q => fsub q (Fin 1))
       (map2 fdiv
          (cumprod_from (Fin a) (map (fadd (Fin 1)) (map Fin xs)))
          (cummax_from (Fin a)
             (cumprod_from (Fin a) (map (fadd (Fin 1)) (map Fin xs)))))).
Proof.
  induction xs as [|x xs IH]; intros a Ha Hxs; [constructor|].
  inversion Hxs as [|? ? Hx Hxs']; subst. cbn beta in Hx.
  cbn [map fadd cumprod_from isna fmul cummax_from].
  assert (Ha' : 0 < a * (1 + x)) by (apply Rmult_lt_0_compat; lra).
  assert (Hge : a <= a * (1 + x)) by nra.
  assert (Hmax : fmax (Fin a) (Fin (a * (1 + x))) = Fin (a * (1 + x))).
  { unfold fmax. cbn [fltb]. unfold Rltb.
    destruct (Rlt_dec a (a * (1 + x))); [reflexivity | f_equal; lra]. }
  rewrite Hmax. cbn [map2 fdiv map]. rewrite Reqb_false by lra.
  cbn [fsub fneg fadd].
  constructor; [f_equal; field; lra|].
  apply (IH (a * (1 + x)) Ha' Hxs').
Qed.

Lemma fold_fmin_zero s :
  Forall (fun d => d = Fin 0) s -> fold_left fmin (dropna s) (Fin 0) = Fin 0.
Proof.
  induction 1 as [|d s -> _ IH]; [reflexivity|].
  cbn [dropna filter notna isna negb fold_left].
  unfold fmin at 2. cbn [fltb]. rewrite Rltb_false by lra. exact IH.
Qed.

Lemma smin_all_zero s :
  s <> [] -> Forall (fun d => d = Fin 0) s -> smin s = Fin 0.
Proof.
  intros Hne Hs. destruct s as [|d s]; [congruence|].
  inversion Hs as [|? ? Hd Hs']; subst.
  unfold smin. cbn [dropna filter notna isna negb].
  apply fold_fmin_zero. assumption.
Qed.

(** A series of returns that are never negative has no drawdown: [MaxDD]
    is 0 and [Calmar] is reported as NaN. *)
Theorem no_loss_no_drawdown (x : R) (xs : list R) (rf : option series) :
  Forall (fun y => 0 <= y) (x :: xs) ->
  exists k,
    kpis (map Fin (x :: xs)) rf = Ok k /\ MaxDD k = Fin 0 /\ Calmar k = NaN.
Proof.
  intros Hall. inversion Hall as [|? ? Hx Hxs]; subst. cbn beta in Hx.
  rewrite kpis_nonempty by (rewrite dropna_fin; discriminate).
  eexists. split; [reflexivity|].
  cbv zeta. cbn [MaxDD Calmar].
  assert (Hm : smin (drawdown (cumprod (map (fadd (Fin 1))
                                            (dropna (map Fin (x :: xs)))))) = Fin 0).
  { rewrite dropna_fin. apply smin_all_zero.
    - unfold drawdown, cumprod. cbn [map fadd cumprod_from isna]. discriminate.
    - unfold drawdown, cumprod, cummax.
      cbn [map fadd cumprod_from isna fmul cummax_from fmax fltb map2 fdiv].
      rewrite Reqb_false by lra. cbn [fsub fneg fadd].
      constructor; [f_equal; field; lra|].
      apply no_loss_drawdown; [lra | assumption]. }
  rewrite Hm. cbn [fltb]. rewrite Rltb_false by lra. split; reflexivity.
Qed.

Lemma no_loss_no_drawdown_witness :
  exists k, kpis (map Fin [1 / 100; 0]) None = Ok k /\ MaxDD k = Fin 0.
Proof.
  destruct (no_loss_no_drawdown (1 / 100) [0] None) as (k & Hk & Hm & _).
  - repeat constructor; lra.
  - exists k. split; assumption.
Defined.

(** ** Annualised volatility *)

(** [AnnVol] is never negative: it is NaN (always so for a single
    observation), infinite, or a non-negative number. *)
Theorem ann_vol_never_negative (returns : series) (rf : option series)
    (r0 : float) (rest : series) :
  dropna returns = r0 :: rest ->
  exists k,
    kpis returns rf = Ok k /\
    (AnnVol k = NaN \/ AnnVol k = PInf \/ exists v, AnnVol k = Fin v /\ 0 <= v) /\
    (rest = [] -> AnnVol k = NaN).
Proof.
  intros Hr.
  rewrite kpis_nonempty by (rewrite Hr; discriminate).
  eexists. split; [reflexivity|]. cbv zeta. cbn [AnnVol].
  change (fmul (std (dropna returns)) (fsqrt (Fin 252)))
    with (annualised_vol (dropna returns)).
  split; [apply annualised_vol_cases|].
  intros ->. unfold annualised_vol.
  rewrite std_short by (rewrite Hr; simpl; lia). reflexivity.
Qed.

Lemma ann_vol_never_negative_witness :
  exists k, kpis [Fin (1 / 100)] None = Ok k /\ AnnVol k = NaN.
Proof.
  destruct (ann_vol_never_negative [Fin (1 / 100)] None (Fin (1 / 100)) [])
    as (k & Hk & _ & H).
  - reflexivity.
  - exists k. split; [assumption | apply H; reflexivity].
Defined.

(** ** Degenerate parameters *)

(** With [vix_width = 0] the division of line 108 is by zero and the gate
    becomes a step: 1 below [vix_cut], 0 above it, and NaN exactly at
    [vix_cut]. *)
Theorem zero_width_gate_is_a_step (p : params) (V : R) :
  vix_width p = 0 ->
  (V < vix_cut p -> gate p V = Fin 1) /\
  (vix_cut p < V -> gate p V = Fin 0) /\
  (V = vix_cut p -> gate p V = NaN).
Proof.
  intros Hw. unfold gate, gate_raw. rewrite Hw.
  cbn [fsub fneg fadd fdiv]. rewrite Reqb_true by reflexivity.
  unfold inf_of_sign, clip1. rewrite Rmin_left, Rmax_right by lra.
  repeat split; intros HV.
  - rewrite Rltb_false, Rltb_true by lra. reflexivity.
  - rewrite Rltb_true by lra. reflexivity.
  - rewrite !Rltb_false by lra. reflexivity.
Qed.

Lemma zero_width_gate_is_a_step_witness :
  gate zero_width 35 = NaN.
Proof.
  destruct (zero_width_gate_is_a_step zero_width 35) as (_ & _ & H).
  - reflexivity.
  - apply H. reflexivity.
Defined.

(** The two ways [lookback_vol] stops lines 99-128: at -1 the division of
    line 103 raises [ZeroDivisionError]; at any other value below 1 the
    EWMA constructor raises [ValueError]. *)
Theorem lookback_error_kinds (p : params) (df : list row) :
  (lookback_vol p = -1 -> simulate p df = Raise ZeroDivisionError) /\
  (lookback_vol p < 1 -> lookback_vol p <> -1 -> simulate p df = Raise ValueError).
Proof.
  split.
  - intros HL. unfold simulate, py_div. rewrite Reqb_true by lra. reflexivity.
  - intros HL Hne. unfold simulate, py_div. rewrite Reqb_false by lra.
    cbn [bind]. unfold ewm_mean.
    destruct (Rle_dec (2 / (lookback_vol p + 1)) 0); [reflexivity|].
    destruct (Rlt_dec 1 (2 / (lookback_vol p + 1))) as [|H1]; [reflexivity|].
    exfalso.
    destruct (simulate_raises p df HL) as [e He].
    unfold simulate, py_div in He. rewrite Reqb_false in He by lra.
    cbn [bind] in He. unfold ewm_mean in He.
    destruct (Rle_dec (2 / (lookback_vol p + 1)) 0); [contradiction|].
    destruct (Rlt_dec 1 (2 / (lookback_vol p + 1))); [contradiction|].
    discriminate.
Qed.

(** ** The sign of the growth rate *)

Lemma fold_fmul_pos xs : forall a,
  0 < a -> Forall (fun x => -1 < x) xs ->
  exists P, fold_left fmul (map (fadd (Fin 1)) (map Fin xs)) (Fin a) = Fin P /\
            0 < P /\
            (Forall (fun x => 0 <= x) xs -> a <= P) /\
            (Forall (fun x => x <= 0) xs -> P <= a).
Proof.
  induction xs as [|x xs IH]; intros a Ha Hxs.
  - exists a. split; [reflexivity|]. repeat split; intros; lra.
  - inversion Hxs as [|? ? Hx Hxs']; subst. cbn beta in Hx.
    cbn [map fadd fold_left fmul].
    assert (Ha' : 0 < a * (1 + x)) by (apply Rmult_lt_0_compat; lra).
    destruct (IH (a * (1 + x)) Ha' Hxs') as (P & HP & HP0 & Hup & Hdown).
    exists P. split; [assumption|]. split; [assumption|]. split.
    + intros H. inversion H as [|? ? H0 H']; subst. cbn beta in H0.
      specialize (Hup H'). nra.
    + intros H. inversion H as [|? ? H0 H']; subst. cbn beta in H0.
      specialize (Hdown H'). nra.
Qed.

Lemma dropna_fin_shift xs :
  dropna (map (fadd (Fin 1)) (map Fin xs)) = map (fadd (Fin 1)) (map Fin xs).
Proof.
  induction xs as [|x xs IH]; [reflexivity|].
  cbn [map fadd dropna filter notna isna negb]. f_equal. apply IH.
Qed.

Lemma Rpower_ge_1 P y : 1 <= P -> 0 < y -> 1 <= Rpower P y.
Proof.
  intros HP Hy. unfold Rpower.
  assert (Hln : 0 <= ln P).
  { destruct HP as [HP | <-]; [|rewrite ln_1; lra].
    rewrite <- ln_1. left. apply ln_increasing; lra. }
  assert (Hm : 0 <= y * ln P) by (apply Rmult_le_pos; lra).
  destruct Hm as [Hm | <-]; [|rewrite exp_0; lra].
  rewrite <- exp_0. left. apply exp_increasing. assumption.
Qed.

Lemma Rpower_le_1 P y : 0 < P <= 1 -> 0 < y -> Rpower P y <= 1.
Proof.
  intros [HP0 HP] Hy. unfold Rpower.
  assert (Hln : ln P <= 0).
  { destruct HP as [HP | ->]; [|rewrite ln_1; lra].
    rewrite <- ln_1. left. apply ln_increasing; lra. }
  assert (Hm : y * ln P <= 0) by nra.
  destruct Hm as [Hm | ->]; [|rewrite exp_0; lra].
  rewrite <- exp_0. left. apply exp_increasing. assumption.
Qed.

(** For returns that are numbers above -1, [CAGR] is never below -1; it
    is not negative when no return is negative and not positive when no
    return is positive. *)
Theorem cagr_sign (x : R) (xs : list R) (rf : option series) :
  Forall (fun y => -1 < y) (x :: xs) ->
  exists k,
    kpis (map Fin (x :: xs)) rf = Ok k /\
    fle (Fin (-1)) (CAGR k) /\
    (Forall (fun y => 0 <= y) (x :: xs) -> fle (Fin 0) (CAGR k)) /\
    (Forall (fun y => y <= 0) (x :: xs) -> fle (CAGR k) (Fin 0)).
Proof.
  intros Hall.
  rewrite kpis_nonempty by (rewrite dropna_fin; discriminate).
  rewrite dropna_fin.
  destruct (fold_fmul_pos (x :: xs) 1) as (P & HP & HP0 & Hup & Hdown);
    [lra | assumption |].
  set (n := length (map Fin (x :: xs))).
  assert (Hy : 0 < 252 / INR n).
  { apply Rdiv_lt_0_compat; [lra|]. apply lt_0_INR. unfold n. simpl. lia. }
  eexists. split; [reflexivity|]. cbv zeta. cbn [CAGR]. fold n.
  unfold prod. rewrite dropna_fin_shift, HP.
  unfold fpow. rewrite Reqb_false by lra. rewrite Rltb_true by assumption.
  cbn [fsub fneg fadd fle].
  assert (Hpow : 0 < Rpower P (252 / INR n)) by (unfold Rpower; apply exp_pos).
  split; [lra|]. split.
  - intros H. pose proof (Rpower_ge_1 P _ (Hup H) Hy). lra.
  - intros H. pose proof (Rpower_le_1 P _ (conj HP0 (Hdown H)) Hy). lra.
Qed.

Lemma cagr_sign_witness :
  exists k, kpis (map Fin [1 / 100; 0]) None = Ok k /\ fle (Fin 0) (CAGR k).
Proof.
  destruct (cagr_sign (1 / 100) [0] None) as (k & Hk & _ & Hpos & _).
  - repeat constructor; lra.
  - exists k. split; [assumption|].
    apply Hpos. repeat constructor; lra.
Defined.

(** ** The shape of the frame *)

Lemma cumprod_length s : length (cumprod s) = length s.
Proof.
  unfold cumprod. generalize (Fin 1).
  induction s as [|a s IH]; intros acc; [reflexivity|].
  cbn [cumprod_from]. destruct (isna a); cbn [length]; rewrite IH; reflexivity.
Qed.

(** Every column that lines 99-128 add has one entry per row of the
    frame. *)
Theorem frame_columns_aligned (p : params) (df : list row) :
  1 <= lookback_vol p ->
  exists fr,
    simulate p df = Ok fr /\
    length (sma20 fr) = length df /\ length (trend_ok fr) = length df /\
    length (ewma_var fr) = length df /\ length (vol_hat_ann fr) = length df /\
    length (w_raw fr) = length df /\ length (g_vix fr) = length df /\
    length (w fr) = length df /\ length (strat_ret fr) = length df /\
    length (bh_ret fr) = length df /\ length (eq_strat fr) = length df /\
    length (eq_bh fr) = length df /\ length (bh_vm_ret fr) = length df /\
    length (eq_bh_vm fr) = length df.
Proof.
  intros HL.
  destruct (simulate_returns p df HL) as (ev & _ & Hlen & Hsim).
  exists (build_frame p df ev). split; [assumption|].
  set (fr := build_frame p df ev).
  pose proof (sma20_length p df ev) as H1.
  pose proof (trend_ok_length p df ev Hlen) as H2.
  pose proof (w_length p df ev Hlen) as H3.
  pose proof (strat_ret_length p df ev Hlen) as H4.
  fold fr in H1, H2, H3, H4.
  assert (H5 : length (bh_vm_ret fr) = length df).
  { cbn [fr build_frame bh_vm_ret]. rewrite map2_length, !length_map. lia. }
  split; [exact H1|]. split; [exact H2|]. split; [exact Hlen|].
  split.
  { cbn [fr build_frame vol_hat_ann]. unfold replace_zero_nan.
    rewrite !length_map. exact Hlen. }
  split.
  { cbn [fr build_frame w_raw]. unfold fillna, clip, replace_zero_nan.
    rewrite !length_map. exact Hlen. }
  split.
  { cbn [fr build_frame g_vix]. unfold clip. rewrite !length_map. reflexivity. }
  split; [exact H3|]. split; [exact H4|].
  split; [cbn [fr build_frame bh_ret]; apply length_map|].
  split.
  { change (eq_strat fr) with (cumprod (map (fadd (Fin 1)) (strat_ret fr))).
    rewrite cumprod_length, length_map. exact H4. }
  split.
  { cbn [fr build_frame eq_bh]. rewrite cumprod_length, !length_map. reflexivity. }
  split; [exact H5|].
  change (eq_bh_vm fr) with (cumprod (map (fadd (Fin 1)) (bh_vm_ret fr))).
  rewrite cumprod_length, length_map. exact H5.
Qed.

Lemma frame_columns_aligned_witness :
  exists fr, simulate default_params [calm_row; flat_row] = Ok fr /\
             length (eq_bh_vm fr) = 2%nat.
Proof.
  destruct (frame_columns_aligned default_params [calm_row; flat_row])
    as (fr & Hfr & H).
  - simpl; lra.
  - exists fr. split; [assumption|]. apply H.
Defined.
